(** * Polled I2C0 master driver of the GD32V board support package (bsp/i2c.c)

    The four driver functions are embedded as computations over a machine
    state made of the byte-addressed memory, the answers the peripheral will
    give to the next reads, and the log of every peripheral access made so
    far.  The peripheral library (i2c_flag_get, i2c_start_on_bus, ...) is
    external to the driver: each of its calls is an observable event, and
    the value a call returns is taken from the answer script.

    Integers are in [Z].  The [uint8_t] parameters ([i2c_dev_7bit_addr],
    [count], [reg], [value]) are numbers below 256; pointers are addresses,
    and [data[i]] is the byte at address [data + i].  No arithmetic of the
    driver can leave the range of its C type: [i2c_dev_7bit_addr << 1] and
    [count - 3] are computed in [int], [--i] runs from [count] down to 0,
    and [i++] from 0 up to [count]. *)

From Stdlib Require Import ZArith List Bool Lia.
Import ListNotations.
Open Scope Z_scope.

(** ** Types of i2c.h and of the peripheral library *)

(** Modelled from the spec: the status type declared in i2c.h, "one of
    {OK, FAIL}", with the names the driver returns. *)
Inductive i2c_state_t := BSP_I2C_OK | BSP_I2C_FAIL.

(** Modelled from the spec: the status flags of the peripheral (bus busy,
    start sent, address acknowledged, transmit buffer empty, receive buffer
    not empty, byte transfer complete), with the names the driver uses. *)
Inductive i2c_flag :=
| I2C_FLAG_I2CBSY | I2C_FLAG_SBSEND | I2C_FLAG_ADDSEND
| I2C_FLAG_TBE | I2C_FLAG_RBNE | I2C_FLAG_BTC.

(** Modelled from the spec: transfer direction, acknowledge position and
    acknowledge setting of the peripheral library. *)
Inductive i2c_direction := I2C_TRANSMITTER | I2C_RECEIVER.
Inductive i2c_ackpos := I2C_ACKPOS_CURRENT | I2C_ACKPOS_NEXT.
Inductive i2c_ack := I2C_ACK_ENABLE | I2C_ACK_DISABLE.

(** One access to the I2C0 peripheral.  A flag read records the status it
    obtained ([true] is SET), a register or data read the value it obtained. *)
Inductive event :=
| Ev_flag_get (f : i2c_flag) (status : bool)
| Ev_start_on_bus
| Ev_master_addressing (addr : Z) (dir : i2c_direction)
| Ev_flag_clear (f : i2c_flag)
| Ev_data_transmit (b : Z)
| Ev_data_receive (b : Z)
| Ev_stop_on_bus
| Ev_ctl0_read (v : Z)
| Ev_ackpos_config (p : i2c_ackpos)
| Ev_ack_config (a : i2c_ack).

(** ** Machine state and the monad of driver code *)

Record machine := mkMachine {
  mem : Z -> Z;          (* memory, one byte per address *)
  script : list Z;       (* what the peripheral answers to the coming reads *)
  trace : list event     (* peripheral accesses so far, oldest first *)
}.

(** [None]: the answers ran out while the driver was still waiting. *)
Definition M (A : Type) : Type := machine -> option (A * machine).

Definition ret {A} (a : A) : M A := fun s => Some (a, s).

Definition bind {A B} (m : M A) (k : A -> M B) : M B :=
  fun s => match m s with
           | Some (a, s') => k a s'
           | None => None
           end.

Notation "x <- m ;; k" := (bind m (fun x => k))
  (at level 61, m at next level, right associativity).
Notation "m ;; k" := (bind m (fun _ => k))
  (at level 61, right associativity).

Definition emit (e : event) : M unit :=
  fun s => Some (tt, mkMachine (mem s) (script s) (trace s ++ [e])).

(** A read of the peripheral: the next answer, seen at the C type of the
    read, and logged. *)
Definition respond {A} (decode : Z -> A) (ev : A -> event) : M A :=
  fun s => match script s with
           | [] => None
           | z :: rest =>
               Some (decode z, mkMachine (mem s) rest (trace s ++ [ev (decode z)]))
           end.

Definition load (a : Z) : M Z := fun s => Some (mem s a, s).

Definition upd (m : Z -> Z) (a v : Z) : Z -> Z :=
  fun x => if x =? a then v else m x.

Definition store (a v : Z) : M unit :=
  fun s => Some (tt, mkMachine (upd (mem s) a v) (script s) (trace s)).

(** ** The peripheral interface used by the driver (always on I2C0)

    Modelled from the spec: the "peripheral register/flag API consumed
    (external collaborator)".  A flag read answers SET for any non-zero
    answer, CTL0 is a 32-bit register and a received byte has 8 bits; the
    calls that only command the peripheral are logged and return nothing. *)

Definition i2c_flag_get (f : i2c_flag) : M bool :=
  respond (fun z => negb (z =? 0)) (Ev_flag_get f).
Definition I2C_CTL0 : M Z := respond (fun z => z mod 2 ^ 32) Ev_ctl0_read.
Definition i2c_data_receive : M Z := respond (fun z => z mod 2 ^ 8) Ev_data_receive.
Definition i2c_start_on_bus : M unit := emit Ev_start_on_bus.
Definition i2c_stop_on_bus : M unit := emit Ev_stop_on_bus.
Definition i2c_master_addressing (addr : Z) (dir : i2c_direction) : M unit :=
  emit (Ev_master_addressing addr dir).
Definition i2c_flag_clear (f : i2c_flag) : M unit := emit (Ev_flag_clear f).
Definition i2c_data_transmit (b : Z) : M unit := emit (Ev_data_transmit b).
Definition i2c_ackpos_config (p : i2c_ackpos) : M unit := emit (Ev_ackpos_config p).
Definition i2c_ack_config (a : i2c_ack) : M unit := emit (Ev_ack_config a).

(** ** Busy-wait loops

    [while (cond);] with an empty body.  Every evaluation of a condition
    used below takes one answer, so a loop started with [n] answers left
    evaluates its condition at most [n + 1] times. *)
Fixpoint while_fuel (fuel : nat) (cond : M bool) : M unit :=
  match fuel with
  | O => fun _ => None
  | S fuel' => c <- cond ;; if c then while_fuel fuel' cond else ret tt
  end.

Definition spin (cond : M bool) : M unit :=
  fun s => while_fuel (S (length (script s))) cond s.

(* while (i2c_flag_get(I2C0, f)); *)
Definition wait_while_set (f : i2c_flag) : M unit := spin (i2c_flag_get f).
(* while (!i2c_flag_get(I2C0, f)); *)
Definition wait_until_set (f : i2c_flag) : M unit :=
  spin (b <- i2c_flag_get f ;; ret (negb b)).
(* while (I2C_CTL0(I2C0) & 0x0200); *)
Definition wait_stop_clear : M unit :=
  spin (v <- I2C_CTL0 ;; ret (negb (Z.land v 0x0200 =? 0))).

(** ** bsp_i2c0_write (i2c.c, lines 24-59) *)

(* lines 44-52:
   while (i) { i2c_data_transmit(I2C0, *data); while (!TBE); data++; --i; } *)
Fixpoint write_loop (i : nat) (data : Z) : M unit :=
  match i with
  | O => ret tt
  | S i' =>
      b <- load data ;;
      i2c_data_transmit b ;;
      wait_until_set I2C_FLAG_TBE ;;
      write_loop i' (data + 1)
  end.

Definition bsp_i2c0_write (i2c_dev_7bit_addr data count : Z) : M i2c_state_t :=
  if count <? 1 then ret BSP_I2C_FAIL else
  wait_while_set I2C_FLAG_I2CBSY ;;
  i2c_start_on_bus ;;
  wait_until_set I2C_FLAG_SBSEND ;;
  i2c_master_addressing (Z.shiftl i2c_dev_7bit_addr 1) I2C_TRANSMITTER ;;
  wait_until_set I2C_FLAG_ADDSEND ;;
  i2c_flag_clear I2C_FLAG_ADDSEND ;;
  wait_until_set I2C_FLAG_TBE ;;
  write_loop (Z.to_nat count) data ;;
  i2c_stop_on_bus ;;
  wait_stop_clear ;;
  ret BSP_I2C_OK.

(** ** bsp_i2c0_reg8_write (i2c.c, lines 68-75)

    [txbuffer] is the address of the local two-byte array of the call,
    initialised to [{reg, value}]; [sizeof(txbuffer)] is 2. *)
Definition bsp_i2c0_reg8_write (txbuffer : Z) (i2c_dev_7bit_addr reg value : Z)
  : M i2c_state_t :=
  store txbuffer reg ;;
  store (txbuffer + 1) value ;;
  _ <- bsp_i2c0_write i2c_dev_7bit_addr txbuffer 2 ;;
  ret BSP_I2C_OK.

(** ** bsp_i2c0_read (i2c.c, lines 85-152) *)

(* lines 106-119, with [n] iterations left:
   for (...; i < count; i++) { if ((count - 3) == i) {...} ... data[i] = ...; } *)
Fixpoint read_loop (n : nat) (i : Z) (data count : Z) : M unit :=
  match n with
  | O => ret tt
  | S n' =>
      (if count - 3 =? i
       then wait_until_set I2C_FLAG_BTC ;; i2c_ack_config I2C_ACK_DISABLE
       else ret tt) ;;
      wait_until_set I2C_FLAG_RBNE ;;
      b <- i2c_data_receive ;;
      store (data + i) b ;;
      read_loop n' (i + 1) data count
  end.

Definition bsp_i2c0_read (i2c_dev_7bit_addr data count : Z) : M i2c_state_t :=
  if count <? 1 then ret BSP_I2C_FAIL else
  i2c_ackpos_config I2C_ACKPOS_NEXT ;;
  wait_while_set I2C_FLAG_I2CBSY ;;
  i2c_start_on_bus ;;
  wait_until_set I2C_FLAG_SBSEND ;;
  i2c_master_addressing (Z.shiftl i2c_dev_7bit_addr 1) I2C_RECEIVER ;;
  wait_until_set I2C_FLAG_ADDSEND ;;
  i2c_flag_clear I2C_FLAG_ADDSEND ;;
  (if 3 <=? count then
     read_loop (Z.to_nat count) 0 data count
   else if count =? 2 then
     wait_until_set I2C_FLAG_BTC ;;
     wait_until_set I2C_FLAG_RBNE ;;
     b0 <- i2c_data_receive ;;
     store (data + 0) b0 ;;
     wait_until_set I2C_FLAG_RBNE ;;
     b1 <- i2c_data_receive ;;
     store (data + 1) b1
   else
     wait_until_set I2C_FLAG_BTC ;;
     wait_until_set I2C_FLAG_RBNE ;;
     b0 <- i2c_data_receive ;;
     store (data + 0) b0) ;;
  i2c_stop_on_bus ;;
  wait_stop_clear ;;
  i2c_ackpos_config I2C_ACKPOS_CURRENT ;;
  i2c_ack_config I2C_ACK_ENABLE ;;
  ret BSP_I2C_OK.

(** ** bsp_i2c0_reg8_read (i2c.c, lines 162-168)

    The first call passes [(uint8_t* )reg]: the pointer whose address is the
    number [reg]. *)
Definition bsp_i2c0_reg8_read (i2c_dev_7bit_addr reg value : Z) : M i2c_state_t :=
  _ <- bsp_i2c0_write i2c_dev_7bit_addr reg 1 ;;
  _ <- bsp_i2c0_read i2c_dev_7bit_addr value 1 ;;
  ret BSP_I2C_OK.

(** ** Languages of traces

    A [seg] is a set of event sequences; the transactions of the driver
    are described as concatenations of single events and polls. *)

Definition seg : Type := list event -> Prop.

Definition eps : seg := fun l => l = [].
Definition one (e : event) : seg := fun l => l = [e].
Definition cat (p q : seg) : seg :=
  fun l => exists a b, l = a ++ b /\ p a /\ q b.
Infix "+++" := cat (at level 60, right associativity).

(** The flag is read until it is found RESET. *)
Definition poll_clear (f : i2c_flag) : seg :=
  fun l => exists n, l = repeat (Ev_flag_get f true) n ++ [Ev_flag_get f false].

(** The flag is read until it is found SET. *)
Definition poll_set (f : i2c_flag) : seg :=
  fun l => exists n, l = repeat (Ev_flag_get f false) n ++ [Ev_flag_get f true].

(** CTL0 is read until its bit 9 (STOP) is found clear. *)
Definition poll_stop : seg :=
  fun l => exists vs v,
    l = map Ev_ctl0_read vs ++ [Ev_ctl0_read v] /\
    Forall (fun x => Z.land x 0x0200 <> 0) vs /\ Z.land v 0x0200 = 0.

Fixpoint tx_bytes (bs : list Z) : seg :=
  match bs with
  | [] => eps
  | b :: bs' => one (Ev_data_transmit b) +++ poll_set I2C_FLAG_TBE +++ tx_bytes bs'
  end.

Definition write_transaction (addr : Z) (bs : list Z) : seg :=
  poll_clear I2C_FLAG_I2CBSY +++
  one Ev_start_on_bus +++
  poll_set I2C_FLAG_SBSEND +++
  one (Ev_master_addressing (Z.shiftl addr 1) I2C_TRANSMITTER) +++
  poll_set I2C_FLAG_ADDSEND +++
  one (Ev_flag_clear I2C_FLAG_ADDSEND) +++
  poll_set I2C_FLAG_TBE +++
  tx_bytes bs +++
  one Ev_stop_on_bus +++
  poll_stop.

Definition rx_byte (b : Z) : seg :=
  poll_set I2C_FLAG_RBNE +++ one (Ev_data_receive b).

Fixpoint rx_bytes (bs : list Z) : seg :=
  match bs with
  | [] => eps
  | b :: bs' => rx_byte b +++ rx_bytes bs'
  end.

Definition nack : seg :=
  poll_set I2C_FLAG_BTC +++ one (Ev_ack_config I2C_ACK_DISABLE).

(** What bsp_i2c0_read does between clearing ADDSEND and the stop
    condition, when it receives the bytes [bs]. *)
Definition rx_phase (count : Z) (bs : list Z) : seg :=
  if 3 <=? count then
    rx_bytes (firstn (Z.to_nat (count - 3)) bs) +++
    nack +++
    rx_bytes (skipn (Z.to_nat (count - 3)) bs)
  else
    poll_set I2C_FLAG_BTC +++ rx_bytes bs.

Definition read_prologue (addr : Z) : seg :=
  one (Ev_ackpos_config I2C_ACKPOS_NEXT) +++
  poll_clear I2C_FLAG_I2CBSY +++
  one Ev_start_on_bus +++
  poll_set I2C_FLAG_SBSEND +++
  one (Ev_master_addressing (Z.shiftl addr 1) I2C_RECEIVER) +++
  poll_set I2C_FLAG_ADDSEND +++
  one (Ev_flag_clear I2C_FLAG_ADDSEND).

Definition read_epilogue : seg :=
  one Ev_stop_on_bus +++
  poll_stop +++
  one (Ev_ackpos_config I2C_ACKPOS_CURRENT) +++
  one (Ev_ack_config I2C_ACK_ENABLE).

Definition read_transaction (addr : Z) (rx : seg) : seg :=
  read_prologue addr +++ rx +++ read_epilogue.

(** The events added between two states belong to [p]. *)
Definition emits (s s' : machine) (p : seg) : Prop :=
  exists l, trace s' = trace s ++ l /\ p l.

(** ** Observations on memory and traces *)

(** The [n] bytes of memory from address [data] on. *)
Fixpoint buffer (m : Z -> Z) (data : Z) (n : nat) : list Z :=
  match n with
  | O => []
  | S n' => m data :: buffer m (data + 1) n'
  end.

(** Memory after the bytes [bs] were stored from address [base] on. *)
Fixpoint stored (m : Z -> Z) (base : Z) (bs : list Z) : Z -> Z :=
  match bs with
  | [] => m
  | b :: bs' => stored (upd m base b) (base + 1) bs'
  end.

Definition count_ev (P : event -> bool) (l : list event) : nat :=
  length (filter P l).

Definition is_receive (e : event) : bool :=
  match e with Ev_data_receive _ => true | _ => false end.

Definition is_ack_disable (e : event) : bool :=
  match e with Ev_ack_config I2C_ACK_DISABLE => true | _ => false end.

(** The bytes given to i2c_data_transmit and the bytes obtained from
    i2c_data_receive, in order. *)
Definition tx_of (e : event) : list Z :=
  match e with Ev_data_transmit b => [b] | _ => [] end.
Definition rx_of (e : event) : list Z :=
  match e with Ev_data_receive b => [b] | _ => [] end.
Definition transmitted (l : list event) : list Z := flat_map tx_of l.
Definition received (l : list event) : list Z := flat_map rx_of l.

(** Acknowledge setting and position left by a sequence of accesses. *)
Definition ack_after (init : i2c_ack) (l : list event) : i2c_ack :=
  fold_left (fun a e => match e with Ev_ack_config a' => a' | _ => a end) l init.

Definition ackpos_after (init : i2c_ackpos) (l : list event) : i2c_ackpos :=
  fold_left (fun p e => match e with Ev_ackpos_config p' => p' | _ => p end) l init.

(** A condition that takes one answer, logs it and tests it. *)
Definition reads (cond : M bool) (test : Z -> bool) (ev : Z -> event) : Prop :=
  forall s, cond s =
            match script s with
            | [] => None
            | z :: rest =>
                Some (test z, mkMachine (mem s) rest (trace s ++ [ev z]))
            end.

(** Answers of a peripheral that is idle and then always ready: the busy
    flag reads RESET, after that every flag reads SET, CTL0 reads 1 and
    every received byte is 1. *)
Definition prompt (n : nat) : list Z := 0 :: repeat 1 n.

(** Every sequence of [p] holds exactly [k] events that satisfy [P]. *)
Definition counts (p : seg) (P : event -> bool) (k : nat) : Prop :=
  forall l, p l -> count_ev P l = k.

(** Every sequence of [p] carries exactly the bytes [v], as selected by [g]. *)
Definition picks (g : event -> list Z) (p : seg) (v : list Z) : Prop :=
  forall l, p l -> flat_map g l = v.

Definition skips_polls (g : event -> list Z) : Prop :=
  (forall f b, g (Ev_flag_get f b) = []) /\
  (forall v, g (Ev_ctl0_read v) = []).

(** A test on events that no read of a flag or of CTL0 satisfies. *)
Definition ignores_polls (P : event -> bool) : Prop :=
  (forall f b, P (Ev_flag_get f b) = false) /\
  (forall v, P (Ev_ctl0_read v) = false).

(** The machine [s] with the further answers [e] after those it has. *)
Definition extend (s : machine) (e : list Z) : machine :=
  mkMachine (mem s) (script s ++ e) (trace s).

(** Answers a computation did not use do not change what it does. *)
Definition frame {A} (m : M A) : Prop :=
  forall s a s1 e, m s = Some (a, s1) -> m (extend s e) = Some (a, extend s1 e).

(** Whatever was answered so far, some further answers let it finish. *)
Definition live {A} (m : M A) : Prop :=
  forall s, exists e a s1, m (extend s e) = Some (a, s1).

Definition steady {A} (m : M A) : Prop := frame m /\ live m.

(** A machine to run the driver on: address 5 holds 170, address 100 holds
    17, every other address holds 34; nothing has been logged yet. *)
Definition bench_mem (a : Z) : Z :=
  if a =? 5 then 170 else if a =? 100 then 17 else 34.
Definition bench (sc : list Z) : machine := mkMachine bench_mem sc [].

(** ** Further observations *)

Definition is_start (e : event) : bool :=
  match e with Ev_start_on_bus => true | _ => false end.

Definition is_stop (e : event) : bool :=
  match e with Ev_stop_on_bus => true | _ => false end.

(** The address arguments given to i2c_master_addressing, in order. *)
Definition addr_of (e : event) : list Z :=
  match e with Ev_master_addressing a _ => [a] | _ => [] end.

(** One mark for every change of the acknowledge setting or position. *)
Definition config_of (e : event) : list Z :=
  match e with
  | Ev_ack_config _ | Ev_ackpos_config _ => [1]
  | _ => []
  end.

(** Two machines with the same pending answers and the same log, whose
    memories hold the same bytes at the addresses in [P]. *)
Definition agree (P : Z -> Prop) (s1 s2 : machine) : Prop :=
  script s1 = script s2 /\ trace s1 = trace s2 /\
  forall a, P a -> mem s1 a = mem s2 a.

Definition same_outcome {A} (P : Z -> Prop) (o1 o2 : option (A * machine)) : Prop :=
  match o1, o2 with
  | Some (a1, s1), Some (a2, s2) => a1 = a2 /\ agree P s1 s2
  | None, None => True
  | _, _ => False
  end.

(** A computation that looks at memory only at the addresses in [P]. *)
Definition confined {A} (P : Z -> Prop) (m : M A) : Prop :=
  forall s1 s2, agree P s1 s2 -> same_outcome P (m s1) (m s2).

(** A completed computation took its answers from the front of the script. *)
Definition prefixing {A} (m : M A) : Prop :=
  forall s a s', m s = Some (a, s') -> exists used, script s = used ++ script s'.

(** ** A peripheral with latency

    Answers of a peripheral that lets every wait look [k] times in vain
    before it gives the answer the wait is looking for; every received
    byte is [d]. *)
Definition late_clear (k : nat) : list Z := repeat 1 k ++ [0].
Definition late_set (k : nat) : list Z := repeat 0 k ++ [1].
Definition late_stop (k : nat) : list Z := repeat 0x0200 k ++ [0].
Definition late_byte (k : nat) (d : Z) : list Z := late_set k ++ [d].

Fixpoint late_tx (k n : nat) : list Z :=
  match n with
  | O => []
  | S n' => late_set k ++ late_tx k n'
  end.

Fixpoint late_rx (k : nat) (d : Z) (n : nat) : list Z :=
  match n with
  | O => []
  | S n' => late_byte k d ++ late_rx k d n'
  end.

(** The answers a write of [n] bytes takes. *)
Definition late_write (k n : nat) : list Z :=
  late_clear k ++ late_set k ++ late_set k ++ late_set k ++
  late_tx k n ++ late_stop k.

(** The answers a read of [count] bytes takes. *)
Definition late_read (k : nat) (d : Z) (count : Z) : list Z :=
  late_clear k ++ late_set k ++ late_set k ++
  (if 3 <=? count
   then late_rx k d (Z.to_nat (count - 3)) ++ late_set k ++ late_rx k d 3
   else late_set k ++ late_rx k d (Z.to_nat count)) ++
  late_stop k.



(** * Properties *)

(** ** Sequencing and trace languages *)

Lemma bind_inv {A B} (m : M A) (k : A -> M B) s b s2 :
  bind m k s = Some (b, s2) ->
  exists a s1, m s = Some (a, s1) /\ k a s1 = Some (b, s2).
Proof.
  unfold bind. destruct (m s) as [[a s1]|]; [eauto | discriminate].
Qed.

Lemma emits_cat s s1 s2 p q :
  emits s s1 p -> emits s1 s2 q -> emits s s2 (p +++ q).
Proof.
  intros (l1 & E1 & H1) (l2 & E2 & H2). exists (l1 ++ l2). split.
  - rewrite E2, E1, app_assoc. reflexivity.
  - exists l1, l2. auto.
Qed.

Lemma emits_eps s s' : trace s' = trace s -> emits s s' eps.
Proof. intros E. exists []. split; [now rewrite app_nil_r | reflexivity]. Qed.

Lemma emits_mono s s' (p q : seg) :
  (forall l, p l -> q l) -> emits s s' p -> emits s s' q.
Proof. intros Hpq (l & E & H). exists l. auto. Qed.

Lemma cat_eps_l (p : seg) l : p l -> (eps +++ p) l.
Proof. intros H. exists [], l. repeat split; auto. Qed.

Lemma cat_assoc_l (p q r : seg) l : (p +++ q +++ r) l -> ((p +++ q) +++ r) l.
Proof.
  intros (a & bc & -> & Ha & b & c & -> & Hb & Hc).
  exists (a ++ b), c. split; [apply app_assoc|]. split; [|exact Hc].
  exists a, b. auto.
Qed.

(** ** Primitive steps *)

Lemma emit_inv e s u s' :
  emit e s = Some (u, s') -> mem s' = mem s /\ emits s s' (one e).
Proof.
  unfold emit. intros H. injection H as _ <-. simpl. split; [reflexivity|].
  exists [e]. split; reflexivity.
Qed.

Lemma load_inv a s v s' : load a s = Some (v, s') -> v = mem s a /\ s' = s.
Proof. unfold load. intros H. injection H as <- <-. auto. Qed.

Lemma store_inv a v s u s' :
  store a v s = Some (u, s') -> mem s' = upd (mem s) a v /\ trace s' = trace s.
Proof. unfold store. intros H. injection H as _ <-. auto. Qed.

Lemma receive_inv s b s' :
  i2c_data_receive s = Some (b, s') ->
  mem s' = mem s /\ emits s s' (one (Ev_data_receive b)).
Proof.
  unfold i2c_data_receive, respond. destruct (script s) as [|z rest]; [discriminate|].
  intros H. injection H as <- <-. simpl. split; [reflexivity|].
  eexists. split; reflexivity.
Qed.

(** ** Busy-wait loops *)

Lemma map_const_repeat {A B} (g : A -> B) (c : B) (l : list A) :
  Forall (fun y => g y = c) l -> map g l = repeat c (length l).
Proof.
  induction 1 as [|y l Hy _ IH]; simpl; [reflexivity|]. now rewrite Hy, IH.
Qed.

Lemma while_fuel_reads cond test ev (Hc : reads cond test ev) :
  forall fuel s u s',
    while_fuel fuel cond s = Some (u, s') ->
    mem s' = mem s /\
    exists fails z,
      script s = fails ++ z :: script s' /\
      Forall (fun y => test y = true) fails /\ test z = false /\
      trace s' = trace s ++ map ev fails ++ [ev z].
Proof.
  induction fuel as [|fuel IH]; intros s u s' H; [discriminate|].
  simpl in H. apply bind_inv in H as (c & s1 & H1 & H2).
  rewrite Hc in H1. destruct (script s) as [|z rest] eqn:Es; [discriminate|].
  injection H1 as <- <-. destruct (test z) eqn:Ez.
  - apply IH in H2 as (Hm & fails & z' & E1 & Hf & Hz & Ht). simpl in *.
    split; [exact Hm|]. exists (z :: fails), z'. repeat split; auto.
    + now rewrite E1.
    + rewrite Ht, <- app_assoc. reflexivity.
  - injection H2 as _ <-. simpl. split; [reflexivity|].
    exists [], z. repeat split; auto.
Qed.

Lemma reads_flag_get f :
  reads (i2c_flag_get f) (fun z => negb (z =? 0))
        (fun z => Ev_flag_get f (negb (z =? 0))).
Proof. intros s. unfold i2c_flag_get, respond. now destruct (script s). Qed.

Lemma reads_flag_unset f :
  reads (b <- i2c_flag_get f ;; ret (negb b)) (fun z => z =? 0)
        (fun z => Ev_flag_get f (negb (z =? 0))).
Proof.
  intros s. unfold bind, i2c_flag_get, respond, ret.
  destruct (script s); [reflexivity|]. now rewrite negb_involutive.
Qed.

Lemma reads_stop_bit :
  reads (v <- I2C_CTL0 ;; ret (negb (Z.land v 0x0200 =? 0)))
        (fun z => negb (Z.land (z mod 2 ^ 32) 0x0200 =? 0))
        (fun z => Ev_ctl0_read (z mod 2 ^ 32)).
Proof. intros s. unfold bind, I2C_CTL0, respond, ret. now destruct (script s). Qed.

Lemma wait_while_set_inv f s u s' :
  wait_while_set f s = Some (u, s') ->
  mem s' = mem s /\ emits s s' (poll_clear f).
Proof.
  intros H. apply (while_fuel_reads _ _ _ (reads_flag_get f)) in H
    as (Hm & fails & z & _ & Hf & Hz & Ht).
  split; [exact Hm|]. eexists. split; [exact Ht|]. exists (length fails).
  rewrite Hz. f_equal. apply map_const_repeat.
  eapply Forall_impl; [|exact Hf]. simpl. now intros a ->.
Qed.

Lemma wait_until_set_inv f s u s' :
  wait_until_set f s = Some (u, s') ->
  mem s' = mem s /\ emits s s' (poll_set f).
Proof.
  intros H. apply (while_fuel_reads _ _ _ (reads_flag_unset f)) in H
    as (Hm & fails & z & _ & Hf & Hz & Ht).
  split; [exact Hm|]. eexists. split; [exact Ht|]. exists (length fails).
  rewrite Hz. f_equal. apply map_const_repeat.
  eapply Forall_impl; [|exact Hf]. simpl. now intros a ->.
Qed.

Lemma wait_stop_clear_inv s u s' :
  wait_stop_clear s = Some (u, s') ->
  mem s' = mem s /\ emits s s' poll_stop.
Proof.
  intros H. apply (while_fuel_reads _ _ _ reads_stop_bit) in H
    as (Hm & fails & z & _ & Hf & Hz & Ht).
  split; [exact Hm|]. eexists. split; [exact Ht|].
  exists (map (fun y => y mod 2 ^ 32) fails), (z mod 2 ^ 32).
  rewrite map_map. split; [reflexivity|]. split.
  - apply Forall_map. eapply Forall_impl; [|exact Hf]. simpl. intros a Ha.
    apply negb_true_iff in Ha. now apply Z.eqb_neq in Ha.
  - apply negb_false_iff in Hz. now apply Z.eqb_eq in Hz.
Qed.

(** With an answer that ends the wait at the head of the script, a wait
    takes exactly that answer. *)
Lemma spin_ready cond test ev (Hc : reads cond test ev) m z sc t :
  test z = false ->
  spin cond (mkMachine m (z :: sc) t) = Some (tt, mkMachine m sc (t ++ [ev z])).
Proof.
  intros Hz. unfold spin. simpl. unfold bind. rewrite Hc. simpl. now rewrite Hz.
Qed.

Lemma wait_while_set_ready f m sc t :
  wait_while_set f (mkMachine m (0 :: sc) t)
  = Some (tt, mkMachine m sc (t ++ [Ev_flag_get f false])).
Proof. exact (spin_ready _ _ _ (reads_flag_get f) m 0 sc t eq_refl). Qed.

Lemma wait_until_set_ready f m sc t :
  wait_until_set f (mkMachine m (1 :: sc) t)
  = Some (tt, mkMachine m sc (t ++ [Ev_flag_get f true])).
Proof. exact (spin_ready _ _ _ (reads_flag_unset f) m 1 sc t eq_refl). Qed.

Lemma wait_stop_clear_ready m sc t :
  wait_stop_clear (mkMachine m (1 :: sc) t)
  = Some (tt, mkMachine m sc (t ++ [Ev_ctl0_read 1])).
Proof. exact (spin_ready _ _ _ reads_stop_bit m 1 sc t eq_refl). Qed.

(** ** Symbolic execution of driver code *)

Lemma emits_to s a b (p : seg) :
  trace b = trace a -> emits s a p -> emits s b p.
Proof. intros E (l & H & Hp). exists l. now rewrite E. Qed.

Lemma ret_inv {A} (a b : A) s s' : ret a s = Some (b, s') -> b = a /\ s' = s.
Proof. unfold ret. intros H. injection H as <- <-. auto. Qed.

Ltac exec_step :=
  match goal with
  | H : bind _ _ _ = Some _ |- _ => apply bind_inv in H as (? & ? & ? & ?)
  | H : ret _ _ = Some _ |- _ => apply ret_inv in H as [-> ->]
  | H : load _ _ = Some _ |- _ => apply load_inv in H as [-> ->]
  | H : store _ _ _ = Some _ |- _ => apply store_inv in H as [? ?]
  | H : i2c_data_receive _ = Some _ |- _ => apply receive_inv in H as [? ?]
  | H : wait_while_set _ _ = Some _ |- _ => apply wait_while_set_inv in H as [? ?]
  | H : wait_until_set _ _ = Some _ |- _ => apply wait_until_set_inv in H as [? ?]
  | H : wait_stop_clear _ = Some _ |- _ => apply wait_stop_clear_inv in H as [? ?]
  | H : i2c_start_on_bus _ = Some _ |- _ => apply emit_inv in H as [? ?]
  | H : i2c_stop_on_bus _ = Some _ |- _ => apply emit_inv in H as [? ?]
  | H : i2c_master_addressing _ _ _ = Some _ |- _ => apply emit_inv in H as [? ?]
  | H : i2c_flag_clear _ _ = Some _ |- _ => apply emit_inv in H as [? ?]
  | H : i2c_data_transmit _ _ = Some _ |- _ => apply emit_inv in H as [? ?]
  | H : i2c_ackpos_config _ _ = Some _ |- _ => apply emit_inv in H as [? ?]
  | H : i2c_ack_config _ _ = Some _ |- _ => apply emit_inv in H as [? ?]
  | Ht : trace ?b = trace ?a, H : emits ?s ?a ?p |- _ =>
      apply (emits_to s a b p Ht) in H; clear Ht
  | H : _ |- _ => progress cbv beta in H
  end.

Ltac exec := repeat exec_step.

(** Chains the segments collected by [exec] into the language of the goal. *)
Ltac chain :=
  first [ eassumption
        | apply emits_eps; reflexivity
        | eapply emits_cat; [chain | chain] ].

(** Rewrites every memory to the earliest one it is known to equal. *)
Ltac same_mem :=
  repeat match goal with
         | H : mem ?a = mem ?b |- _ => try rewrite H in *; clear H
         end.

(** ** bsp_i2c0_write *)

Lemma write_loop_inv n :
  forall data s u s',
    write_loop n data s = Some (u, s') ->
    mem s' = mem s /\ emits s s' (tx_bytes (buffer (mem s) data n)).
Proof.
  induction n as [|n IH]; intros data s u s' H; simpl in H.
  - exec. split; [reflexivity|]. now apply emits_eps.
  - exec.
    match goal with H : write_loop _ _ _ = Some _ |- _ =>
      apply IH in H as [Hm Hl] end.
    same_mem. split; [reflexivity|]. simpl. chain.
Qed.

Lemma bsp_i2c0_write_fail addr data count s :
  count < 1 -> bsp_i2c0_write addr data count s = Some (BSP_I2C_FAIL, s).
Proof.
  intros Hc. unfold bsp_i2c0_write. apply Z.ltb_lt in Hc. now rewrite Hc.
Qed.

Lemma bsp_i2c0_write_inv addr data count s r s' :
  1 <= count ->
  bsp_i2c0_write addr data count s = Some (r, s') ->
  r = BSP_I2C_OK /\ mem s' = mem s /\
  emits s s' (write_transaction addr (buffer (mem s) data (Z.to_nat count))).
Proof.
  intros Hc H. unfold bsp_i2c0_write in H.
  destruct (count <? 1) eqn:E; [apply Z.ltb_lt in E; lia|]. clear E.
  exec.
  match goal with H : write_loop _ _ _ = Some _ |- _ =>
    apply write_loop_inv in H as [Hm Hl] end.
  same_mem. split; [reflexivity|]. split; [reflexivity|].
  unfold write_transaction. chain.
Qed.

(** ** bsp_i2c0_read *)

(** Iterations after the one that disables the acknowledge. *)
Lemma read_loop_late n :
  forall i data count s u s',
    count - 3 < i ->
    read_loop n i data count s = Some (u, s') ->
    exists bs,
      length bs = n /\ emits s s' (rx_bytes bs) /\
      forall a, mem s' a = stored (mem s) (data + i) bs a.
Proof.
  induction n as [|n IH]; intros i data count s u s' Hi H; simpl in H.
  - exec. exists []. repeat split. now apply emits_eps.
  - destruct (count - 3 =? i) eqn:E; [apply Z.eqb_eq in E; lia|]. exec.
    match goal with H : read_loop _ _ _ _ _ = Some _ |- _ =>
      apply IH in H as (bs & Hlen & Hl & Hm); [|lia] end.
    match goal with H : mem _ = upd _ _ _ |- _ => rewrite H in Hm end.
    same_mem.
    match goal with H : emits _ _ (one (Ev_data_receive ?b)) |- _ =>
      exists (b :: bs) end.
    split; [simpl; congruence|]. split.
    + simpl. unfold rx_byte. chain.
    + intros a. rewrite Hm. simpl. now rewrite Z.add_assoc.
Qed.

(** Iterations up to and after the one that disables the acknowledge. *)
Lemma read_loop_early n :
  forall i data count s u s',
    i <= count - 3 ->
    i + Z.of_nat n = count ->
    read_loop n i data count s = Some (u, s') ->
    exists bs,
      length bs = n /\
      emits s s' (rx_bytes (firstn (Z.to_nat (count - 3 - i)) bs) +++
                  nack +++
                  rx_bytes (skipn (Z.to_nat (count - 3 - i)) bs)) /\
      forall a, mem s' a = stored (mem s) (data + i) bs a.
Proof.
  induction n as [|n IH]; intros i data count s u s' Hi Hn H; [lia|].
  simpl in H. destruct (count - 3 =? i) eqn:E.
  - apply Z.eqb_eq in E. exec.
    match goal with H : read_loop _ _ _ _ _ = Some _ |- _ =>
      apply read_loop_late in H as (bs & Hlen & Hl & Hm); [|lia] end.
    match goal with H : mem _ = upd _ _ _ |- _ => rewrite H in Hm end.
    same_mem.
    match goal with H : emits _ _ (one (Ev_data_receive ?b)) |- _ =>
      exists (b :: bs) end.
    split; [simpl; congruence|]. split.
    + replace (count - 3 - i) with 0 by lia. simpl.
      eapply emits_mono; [apply cat_eps_l|]. unfold nack, rx_byte. chain.
    + intros a. rewrite Hm. simpl. now rewrite Z.add_assoc.
  - apply Z.eqb_neq in E. exec.
    match goal with H : read_loop _ _ _ _ _ = Some _ |- _ =>
      apply IH in H as (bs & Hlen & Hl & Hm); [|lia|lia] end.
    match goal with H : mem _ = upd _ _ _ |- _ => rewrite H in Hm end.
    same_mem.
    match goal with H : emits _ _ (one (Ev_data_receive ?b)) |- _ =>
      exists (b :: bs) end.
    split; [simpl; congruence|]. split.
    + replace (Z.to_nat (count - 3 - i))
        with (S (Z.to_nat (count - 3 - (i + 1)))) by lia.
      simpl. eapply emits_mono; [apply cat_assoc_l|]. unfold rx_byte. chain.
    + intros a. rewrite Hm. simpl. now rewrite Z.add_assoc.
Qed.

Lemma bsp_i2c0_read_fail addr data count s :
  count < 1 -> bsp_i2c0_read addr data count s = Some (BSP_I2C_FAIL, s).
Proof.
  intros Hc. unfold bsp_i2c0_read. apply Z.ltb_lt in Hc. now rewrite Hc.
Qed.

(** Every completed read of at least one byte: result, trace and memory. *)
Lemma bsp_i2c0_read_inv addr data count s r s' :
  1 <= count ->
  bsp_i2c0_read addr data count s = Some (r, s') ->
  r = BSP_I2C_OK /\
  exists bs,
    length bs = Z.to_nat count /\
    emits s s' (read_transaction addr (rx_phase count bs)) /\
    forall a, mem s' a = stored (mem s) data bs a.
Proof.
  intros Hc H. unfold bsp_i2c0_read in H.
  destruct (count <? 1) eqn:E; [apply Z.ltb_lt in E; lia|]. clear E.
  unfold read_transaction, read_prologue, read_epilogue, rx_phase.
  destruct (3 <=? count) eqn:E3; [|destruct (count =? 2) eqn:E2].
  - apply Z.leb_le in E3. exec.
    match goal with H : read_loop _ _ _ _ _ = Some _ |- _ =>
      apply read_loop_early in H as (bs & Hlen & Hl & Hm); [|lia|lia] end.
    rewrite Z.sub_0_r in Hl. rewrite Z.add_0_r in Hm.
    same_mem. split; [reflexivity|]. exists bs. repeat split; auto. chain.
  - apply Z.eqb_eq in E2. subst count. exec. rewrite Z.add_0_r in *.
    split; [reflexivity|].
    match goal with
    | H1 : emits _ _ (one (Ev_data_receive ?b0)),
      H2 : emits _ _ (one (Ev_data_receive ?b1)),
      Hs : mem _ = upd (mem _) (data + 1) ?b1 |- _ => exists [b0; b1]
    end.
    split; [reflexivity|]. split.
    + simpl. unfold rx_byte. chain.
    + intros a. simpl. same_mem.
      repeat match goal with H : mem _ = upd _ _ _ |- _ =>
        rewrite H; clear H end.
      reflexivity.
  - apply Z.leb_gt in E3. apply Z.eqb_neq in E2.
    assert (count = 1) by lia. subst count. exec. rewrite Z.add_0_r in *.
    split; [reflexivity|].
    match goal with
    | H1 : emits _ _ (one (Ev_data_receive ?b0)) |- _ => exists [b0]
    end.
    split; [reflexivity|]. split.
    + simpl. unfold rx_byte. chain.
    + intros a. simpl. same_mem.
      repeat match goal with H : mem _ = upd _ _ _ |- _ =>
        rewrite H; clear H end.
      reflexivity.
Qed.

(** ** Runs against a peripheral that is always ready *)

Lemma bind_some {A B} (m : M A) (k : A -> M B) s a s1 :
  m s = Some (a, s1) -> bind m k s = k a s1.
Proof. unfold bind. now intros ->. Qed.

(** Runs the leading steps that need no more than the head of the script. *)
Ltac forward :=
  repeat (erewrite bind_some by reflexivity; cbn [mem script trace]).

Lemma write_loop_prompt n :
  forall data m sc t,
  exists t', write_loop n data (mkMachine m (repeat 1 n ++ sc) t)
             = Some (tt, mkMachine m sc t').
Proof.
  induction n as [|n IH]; intros data m sc t; cbn [write_loop repeat app].
  - eexists. reflexivity.
  - forward. apply IH.
Qed.

Lemma bsp_i2c0_write_returns addr data count m sc t :
  1 <= count ->
  exists t',
    bsp_i2c0_write addr data count
      (mkMachine m (prompt (Z.to_nat count + 4) ++ sc) t)
    = Some (BSP_I2C_OK, mkMachine m sc t').
Proof.
  intros Hc. unfold bsp_i2c0_write.
  destruct (count <? 1) eqn:E; [apply Z.ltb_lt in E; lia|]. clear E.
  replace (Z.to_nat count + 4)%nat with (3 + (Z.to_nat count + 1))%nat by lia.
  unfold prompt. rewrite !repeat_app. cbn [repeat app Nat.add].
  rewrite <- app_assoc. cbn [app]. forward.
  match goal with
  | |- context [bind (write_loop ?n ?d) _ (mkMachine ?m0 (_ ++ ?sc0) ?t0)] =>
      destruct (write_loop_prompt n d m0 sc0 t0) as [t1 H]
  end.
  erewrite bind_some by exact H. forward. eexists. reflexivity.
Qed.

Lemma read_loop_prompt_late n :
  forall i data count m sc t,
    count - 3 < i ->
    exists m' t',
      read_loop n i data count (mkMachine m (repeat 1 (2 * n) ++ sc) t)
      = Some (tt, mkMachine m' sc t').
Proof.
  induction n as [|n IH]; intros i data count m sc t Hi.
  - do 2 eexists. reflexivity.
  - replace (2 * S n)%nat with (S (S (2 * n))) by lia.
    cbn [read_loop repeat app].
    destruct (count - 3 =? i) eqn:E; [apply Z.eqb_eq in E; lia|].
    forward. apply IH. lia.
Qed.

Lemma read_loop_prompt_early n :
  forall i data count m sc t,
    i <= count - 3 ->
    i + Z.of_nat n = count ->
    exists m' t',
      read_loop n i data count (mkMachine m (repeat 1 (2 * n + 1) ++ sc) t)
      = Some (tt, mkMachine m' sc t').
Proof.
  induction n as [|n IH]; intros i data count m sc t Hi Hn; [lia|].
  cbn [read_loop]. destruct (count - 3 =? i) eqn:E.
  - replace (2 * S n + 1)%nat with (S (S (S (2 * n)))) by lia.
    cbn [repeat app]. forward. apply read_loop_prompt_late.
    apply Z.eqb_eq in E. lia.
  - replace (2 * S n + 1)%nat with (S (S (2 * n + 1))) by lia.
    cbn [repeat app]. forward. apply Z.eqb_neq in E. apply IH; lia.
Qed.

Lemma bsp_i2c0_read_returns addr data count m sc t :
  1 <= count ->
  exists m' t',
    bsp_i2c0_read addr data count
      (mkMachine m (prompt (2 * Z.to_nat count + 4) ++ sc) t)
    = Some (BSP_I2C_OK, mkMachine m' sc t').
Proof.
  intros Hc. unfold bsp_i2c0_read.
  destruct (count <? 1) eqn:E; [apply Z.ltb_lt in E; lia|]. clear E.
  destruct (3 <=? count) eqn:E3.
  - apply Z.leb_le in E3. cbv beta iota.
    replace (2 * Z.to_nat count + 4)%nat
      with (2 + ((2 * Z.to_nat count + 1) + 1))%nat by lia.
    unfold prompt. do 2 rewrite repeat_app. cbn [repeat app Nat.add].
    rewrite <- app_assoc. cbn [app]. forward.
    match goal with
    | |- context [bind (read_loop ?n ?i ?d ?c) _ (mkMachine ?m0 (_ ++ ?sc0) ?t0)] =>
        destruct (read_loop_prompt_early n i d c m0 sc0 t0) as (m1 & t1 & H);
        [lia | lia |]
    end.
    erewrite bind_some by exact H. forward. do 2 eexists. reflexivity.
  - apply Z.leb_gt in E3. assert (count = 1 \/ count = 2) as [-> | ->] by lia.
    + replace (prompt (2 * Z.to_nat 1 + 4)) with [0; 1; 1; 1; 1; 1; 1]
        by reflexivity.
      cbn [app]. forward. do 2 eexists. reflexivity.
    + replace (prompt (2 * Z.to_nat 2 + 4)) with [0; 1; 1; 1; 1; 1; 1; 1; 1]
        by reflexivity.
      cbn [app]. forward. do 2 eexists. reflexivity.
Qed.

(** ** Memory observations *)

Lemma stored_outside bs :
  forall m base a,
    a < base \/ base + Z.of_nat (length bs) <= a ->
    stored m base bs a = m a.
Proof.
  induction bs as [|b bs IH]; intros m base a Ha; simpl; [reflexivity|].
  rewrite IH by (simpl length in Ha; lia). unfold upd.
  destruct (a =? base) eqn:E; [|reflexivity].
  apply Z.eqb_eq in E. simpl length in Ha. lia.
Qed.

Lemma stored_inside bs :
  forall m base i,
    (i < length bs)%nat ->
    stored m base bs (base + Z.of_nat i) = nth i bs 0.
Proof.
  induction bs as [|b bs IH]; intros m base i Hi; simpl in *; [lia|].
  destruct i as [|i].
  - rewrite stored_outside by lia. unfold upd.
    replace (base + Z.of_nat 0) with base by lia. now rewrite Z.eqb_refl.
  - replace (base + Z.of_nat (S i)) with (base + 1 + Z.of_nat i) by lia.
    apply IH. lia.
Qed.

Lemma buffer_length m n : forall data, length (buffer m data n) = n.
Proof. induction n as [|n IH]; intros data; simpl; [reflexivity|]. now rewrite IH. Qed.

Lemma buffer_nth m n :
  forall data i,
    (i < n)%nat -> nth i (buffer m data n) 0 = m (data + Z.of_nat i).
Proof.
  induction n as [|n IH]; intros data i Hi; [lia|]. simpl.
  destruct i as [|i].
  - f_equal. lia.
  - rewrite IH by lia. f_equal. lia.
Qed.

(** ** Counting events in a trace language *)

Lemma count_ev_app P a b :
  count_ev P (a ++ b) = (count_ev P a + count_ev P b)%nat.
Proof. unfold count_ev. now rewrite filter_app, length_app. Qed.

Lemma count_ev_repeat P e n : P e = false -> count_ev P (repeat e n) = 0%nat.
Proof.
  intros He. unfold count_ev. induction n as [|n IH]; simpl; [reflexivity|].
  now rewrite He.
Qed.

Lemma counts_eq p P k k' : counts p P k -> k = k' -> counts p P k'.
Proof. now intros H <-. Qed.

Lemma counts_eps P : counts eps P 0.
Proof. now intros l ->. Qed.

Lemma counts_one P e : counts (one e) P (if P e then 1 else 0).
Proof. intros l ->. unfold count_ev. simpl. now destruct (P e). Qed.

Lemma counts_cat p q P a b :
  counts p P a -> counts q P b -> counts (p +++ q) P (a + b).
Proof.
  intros Hp Hq l (x & y & -> & Hx & Hy).
  now rewrite count_ev_app, (Hp x Hx), (Hq y Hy).
Qed.

Lemma counts_poll_clear P f : ignores_polls P -> counts (poll_clear f) P 0.
Proof.
  intros [Hf _] l [n ->]. rewrite count_ev_app, count_ev_repeat by apply Hf.
  unfold count_ev. simpl. now rewrite Hf.
Qed.

Lemma counts_poll_set P f : ignores_polls P -> counts (poll_set f) P 0.
Proof.
  intros [Hf _] l [n ->]. rewrite count_ev_app, count_ev_repeat by apply Hf.
  unfold count_ev. simpl. now rewrite Hf.
Qed.

Lemma counts_poll_stop P : ignores_polls P -> counts poll_stop P 0.
Proof.
  intros [_ Hv] l (vs & v & -> & _). rewrite count_ev_app.
  unfold count_ev at 2. simpl. rewrite Hv. simpl. rewrite Nat.add_0_r.
  unfold count_ev. induction vs as [|x vs IH]; simpl; [reflexivity|].
  now rewrite Hv.
Qed.

Lemma ignores_polls_receive : ignores_polls is_receive.
Proof. split; reflexivity. Qed.

Lemma ignores_polls_ack_disable : ignores_polls is_ack_disable.
Proof. split; reflexivity. Qed.

Create HintDb segs.
#[local] Hint Resolve ignores_polls_receive ignores_polls_ack_disable : segs.
#[local] Hint Resolve counts_eps counts_one counts_cat
  counts_poll_clear counts_poll_set counts_poll_stop : segs.

Lemma counts_rx_bytes_receive bs : counts (rx_bytes bs) is_receive (length bs).
Proof.
  induction bs as [|b bs IH]; simpl; [apply counts_eps|].
  eapply counts_eq; [unfold rx_byte; eauto 10 with segs | reflexivity].
Qed.

Lemma counts_rx_bytes_ack_disable bs : counts (rx_bytes bs) is_ack_disable 0.
Proof.
  induction bs as [|b bs IH]; simpl; [apply counts_eps|].
  eapply counts_eq; [unfold rx_byte; eauto 10 with segs | reflexivity].
Qed.

#[local] Hint Resolve counts_rx_bytes_receive counts_rx_bytes_ack_disable : segs.

Ltac count_segs :=
  repeat first
    [ eapply counts_cat | apply counts_one | apply counts_eps
    | apply counts_poll_clear | apply counts_poll_set | apply counts_poll_stop
    | apply counts_rx_bytes_receive | apply counts_rx_bytes_ack_disable
    | apply ignores_polls_receive | apply ignores_polls_ack_disable ].

Lemma counts_read_receive addr count bs :
  length bs = Z.to_nat count ->
  counts (read_transaction addr (rx_phase count bs)) is_receive (Z.to_nat count).
Proof.
  intros Hlen. unfold read_transaction, read_prologue, read_epilogue, rx_phase, nack.
  destruct (3 <=? count); (eapply counts_eq; [count_segs|]); simpl.
  - rewrite length_firstn, length_skipn. lia.
  - lia.
Qed.

Lemma counts_read_ack_disable addr count bs :
  counts (read_transaction addr (rx_phase count bs)) is_ack_disable
         (if 3 <=? count then 1 else 0).
Proof.
  unfold read_transaction, read_prologue, read_epilogue, rx_phase, nack.
  destruct (3 <=? count); (eapply counts_eq; [count_segs|]); reflexivity.
Qed.

Lemma counts_read_prologue_receive addr :
  counts (read_prologue addr) is_receive 0.
Proof. unfold read_prologue. eapply counts_eq; [count_segs | reflexivity]. Qed.

Lemma counts_read_epilogue_receive : counts read_epilogue is_receive 0.
Proof. unfold read_epilogue. eapply counts_eq; [count_segs | reflexivity]. Qed.

(** ** Bytes carried by a trace language *)

Lemma picks_eq g p v v' : picks g p v -> v = v' -> picks g p v'.
Proof. now intros H <-. Qed.

Lemma picks_eps g : picks g eps [].
Proof. now intros l ->. Qed.

Lemma picks_one g e : picks g (one e) (g e).
Proof. intros l ->. simpl. apply app_nil_r. Qed.

Lemma picks_cat g p q a b :
  picks g p a -> picks g q b -> picks g (p +++ q) (a ++ b).
Proof.
  intros Hp Hq l (x & y & -> & Hx & Hy).
  now rewrite flat_map_app, (Hp x Hx), (Hq y Hy).
Qed.

Lemma flat_map_repeat_nil g (e : event) n :
  g e = @nil Z -> flat_map g (repeat e n) = [].
Proof. intros He. induction n as [|n IH]; simpl; [reflexivity|]. now rewrite He. Qed.

Lemma picks_poll_clear g f : skips_polls g -> picks g (poll_clear f) [].
Proof.
  intros [Hf _] l [n ->]. rewrite flat_map_app, flat_map_repeat_nil by apply Hf.
  simpl. now rewrite Hf.
Qed.

Lemma picks_poll_set g f : skips_polls g -> picks g (poll_set f) [].
Proof.
  intros [Hf _] l [n ->]. rewrite flat_map_app, flat_map_repeat_nil by apply Hf.
  simpl. now rewrite Hf.
Qed.

Lemma picks_poll_stop g : skips_polls g -> picks g poll_stop [].
Proof.
  intros [_ Hv] l (vs & v & -> & _). rewrite flat_map_app. simpl.
  rewrite Hv, app_nil_r. induction vs as [|x vs IH]; simpl; [reflexivity|].
  now rewrite Hv.
Qed.

Lemma skips_polls_tx : skips_polls tx_of.
Proof. split; reflexivity. Qed.

Lemma skips_polls_rx : skips_polls rx_of.
Proof. split; reflexivity. Qed.

Ltac pick_segs :=
  repeat first
    [ eapply picks_cat | apply picks_one | apply picks_eps
    | apply picks_poll_clear | apply picks_poll_set | apply picks_poll_stop
    | apply skips_polls_tx | apply skips_polls_rx ].

Lemma picks_tx_bytes bs : picks tx_of (tx_bytes bs) bs.
Proof.
  induction bs as [|b bs IH]; simpl; [apply picks_eps|].
  eapply picks_eq; [pick_segs; exact IH | reflexivity].
Qed.

Lemma picks_rx_bytes bs : picks rx_of (rx_bytes bs) bs.
Proof.
  induction bs as [|b bs IH]; simpl; [apply picks_eps|].
  eapply picks_eq; [unfold rx_byte; pick_segs; exact IH | reflexivity].
Qed.

Lemma picks_rx_bytes_tx bs : picks tx_of (rx_bytes bs) [].
Proof.
  induction bs as [|b bs IH]; simpl; [apply picks_eps|].
  eapply picks_eq; [unfold rx_byte; pick_segs; exact IH | reflexivity].
Qed.

Lemma picks_tx_bytes_rx bs : picks rx_of (tx_bytes bs) [].
Proof.
  induction bs as [|b bs IH]; simpl; [apply picks_eps|].
  eapply picks_eq; [pick_segs; exact IH | reflexivity].
Qed.

Lemma picks_write_received addr bs :
  picks rx_of (write_transaction addr bs) [].
Proof.
  unfold write_transaction.
  eapply picks_eq; [pick_segs; apply picks_tx_bytes_rx | reflexivity].
Qed.

Lemma picks_write_transaction addr bs :
  picks tx_of (write_transaction addr bs) bs.
Proof.
  unfold write_transaction.
  eapply picks_eq; [pick_segs; apply picks_tx_bytes | simpl; apply app_nil_r].
Qed.

Lemma picks_read_received addr count bs :
  picks rx_of (read_transaction addr (rx_phase count bs)) bs.
Proof.
  unfold read_transaction, read_prologue, read_epilogue, rx_phase, nack.
  destruct (3 <=? count);
    (eapply picks_eq; [pick_segs; apply picks_rx_bytes | simpl]).
  - rewrite !app_nil_r. apply firstn_skipn.
  - apply app_nil_r.
Qed.

Lemma picks_read_transmitted addr count bs :
  picks tx_of (read_transaction addr (rx_phase count bs)) [].
Proof.
  unfold read_transaction, read_prologue, read_epilogue, rx_phase, nack.
  destruct (3 <=? count);
    (eapply picks_eq; [pick_segs; apply picks_rx_bytes_tx | reflexivity]).
Qed.

(** ** Where a read ends *)

Lemma rx_bytes_last bs l :
  bs <> [] -> rx_bytes bs l -> exists pre b, l = pre ++ [Ev_data_receive b].
Proof.
  revert l. induction bs as [|b bs IH]; intros l Hne H; [congruence|].
  destruct H as (x & y & -> & (p & q & -> & _ & ->) & Hy).
  destruct bs as [|b' bs].
  - simpl in Hy. rewrite Hy, app_nil_r. eauto.
  - destruct (IH y) as (pre & c & ->); [discriminate | exact Hy |].
    exists ((p ++ [Ev_data_receive b]) ++ pre), c. now rewrite app_assoc.
Qed.

Lemma rx_phase_last count bs l :
  1 <= count -> length bs = Z.to_nat count ->
  rx_phase count bs l -> exists pre b, l = pre ++ [Ev_data_receive b].
Proof.
  intros Hc Hlen H. unfold rx_phase in H. destruct (3 <=? count) eqn:E.
  - apply Z.leb_le in E. destruct H as (x & y & -> & _ & z & w & -> & _ & Hw).
    apply rx_bytes_last in Hw as (pre & b & ->).
    + exists (x ++ z ++ pre), b. now rewrite <- !app_assoc.
    + intros E0. apply (f_equal (@length Z)) in E0.
      rewrite length_skipn in E0. simpl in E0. lia.
  - destruct H as (x & y & -> & _ & Hy).
    apply rx_bytes_last in Hy as (pre & b & ->).
    + exists (x ++ pre), b. now rewrite app_assoc.
    + intros ->. simpl in Hlen. lia.
Qed.

Lemma read_epilogue_end l :
  read_epilogue l ->
  exists mid,
    l = mid ++ [Ev_ackpos_config I2C_ACKPOS_CURRENT; Ev_ack_config I2C_ACK_ENABLE].
Proof.
  intros (a & x & -> & _ & b & y & -> & _ & c & d & -> & -> & ->).
  exists (a ++ b). now rewrite <- app_assoc.
Qed.

Lemma ack_after_end a0 l p :
  ack_after a0 (l ++ [Ev_ackpos_config p; Ev_ack_config I2C_ACK_ENABLE])
  = I2C_ACK_ENABLE.
Proof. unfold ack_after. now rewrite fold_left_app. Qed.

Lemma ackpos_after_end p0 l a :
  ackpos_after p0 (l ++ [Ev_ackpos_config I2C_ACKPOS_CURRENT; Ev_ack_config a])
  = I2C_ACKPOS_CURRENT.
Proof. unfold ackpos_after. now rewrite fold_left_app. Qed.

(** ** The register operations *)

Lemma upd_same m a v : upd m a v a = v.
Proof. unfold upd. now rewrite Z.eqb_refl. Qed.

Lemma upd_other m a v x : x <> a -> upd m a v x = m x.
Proof. unfold upd. intros H. apply Z.eqb_neq in H. now rewrite H. Qed.

(** A register write is one write of the two bytes just put in [txbuffer]. *)
Lemma bsp_i2c0_reg8_write_unfold txbuffer addr reg value s :
  bsp_i2c0_reg8_write txbuffer addr reg value s
  = match bsp_i2c0_write addr txbuffer 2
            (mkMachine (upd (upd (mem s) txbuffer reg) (txbuffer + 1) value)
                       (script s) (trace s)) with
    | Some (_, s') => Some (BSP_I2C_OK, s')
    | None => None
    end.
Proof. reflexivity. Qed.

Lemma bsp_i2c0_reg8_write_inv txbuffer addr reg value s r s' :
  bsp_i2c0_reg8_write txbuffer addr reg value s = Some (r, s') ->
  r = BSP_I2C_OK /\
  emits s s' (write_transaction addr [reg; value]) /\
  forall a, mem s' a = upd (upd (mem s) txbuffer reg) (txbuffer + 1) value a.
Proof.
  rewrite bsp_i2c0_reg8_write_unfold.
  destruct (bsp_i2c0_write _ _ _ _) as [[r0 s0]|] eqn:H; [|discriminate].
  intros E. injection E as <- <-.
  apply bsp_i2c0_write_inv in H as (_ & Hm & Hl); [|lia]. simpl in Hm, Hl.
  rewrite upd_same, upd_other, upd_same in Hl by lia.
  split; [reflexivity|]. split; [exact Hl|]. intros a. now rewrite Hm.
Qed.

(** A register read is a write of the byte found at address [reg], then a
    read of one byte into [value]. *)
Lemma bsp_i2c0_reg8_read_inv addr reg value s r s' :
  bsp_i2c0_reg8_read addr reg value s = Some (r, s') ->
  r = BSP_I2C_OK /\
  exists b,
    emits s s' (write_transaction addr [mem s reg] +++
                read_transaction addr (rx_phase 1 [b])) /\
    forall a, mem s' a = upd (mem s) value b a.
Proof.
  intros H. unfold bsp_i2c0_reg8_read in H. exec.
  match goal with H : bsp_i2c0_write _ _ _ _ = Some _ |- _ =>
    apply bsp_i2c0_write_inv in H as (_ & Hm1 & Hl1); [|lia] end.
  match goal with H : bsp_i2c0_read _ _ _ _ = Some _ |- _ =>
    apply bsp_i2c0_read_inv in H as (_ & bs & Hlen & Hl2 & Hm2); [|lia] end.
  simpl in Hl1. destruct bs as [|b [|b' bs]]; try discriminate.
  split; [reflexivity|]. exists b. split; [chain|].
  intros a. rewrite Hm2. simpl. now rewrite Hm1.
Qed.

Lemma bsp_i2c0_reg8_write_returns txbuffer addr reg value m sc t :
  exists m' t',
    bsp_i2c0_reg8_write txbuffer addr reg value (mkMachine m (prompt 6 ++ sc) t)
    = Some (BSP_I2C_OK, mkMachine m' sc t').
Proof.
  rewrite bsp_i2c0_reg8_write_unfold. cbn [mem script trace].
  destruct (bsp_i2c0_write_returns addr txbuffer 2
              (upd (upd m txbuffer reg) (txbuffer + 1) value) sc t) as [t' H];
    [lia|].
  change (prompt (Z.to_nat 2 + 4)) with (prompt 6) in H. rewrite H. eauto.
Qed.

Lemma bsp_i2c0_reg8_read_returns addr reg value m sc t :
  exists m' t',
    bsp_i2c0_reg8_read addr reg value
      (mkMachine m (prompt 5 ++ prompt 6 ++ sc) t)
    = Some (BSP_I2C_OK, mkMachine m' sc t').
Proof.
  unfold bsp_i2c0_reg8_read.
  destruct (bsp_i2c0_write_returns addr reg 1 m (prompt 6 ++ sc) t)
    as [t1 H1]; [lia|].
  change (prompt (Z.to_nat 1 + 4)) with (prompt 5) in H1.
  erewrite bind_some by exact H1.
  destruct (bsp_i2c0_read_returns addr value 1 m sc t1) as (m2 & t2 & H2); [lia|].
  change (prompt (2 * Z.to_nat 1 + 4)) with (prompt 6) in H2.
  erewrite bind_some by exact H2. do 2 eexists. reflexivity.
Qed.

(** ** The driver only ever waits

    Every computation of the driver finishes once the peripheral has given
    the answers its waits are looking for: running out of answers is the
    only way not to return. *)

Lemma extend_app s e1 e2 : extend (extend s e1) e2 = extend s (e1 ++ e2).
Proof. unfold extend. simpl. now rewrite <- app_assoc. Qed.

Lemma steady_ret {A} (a : A) : steady (ret a).
Proof.
  split.
  - intros s b s1 e H. apply ret_inv in H as [-> ->]. reflexivity.
  - intros s. exists [], a. eexists. reflexivity.
Qed.

Lemma steady_emit ev : steady (emit ev).
Proof.
  split.
  - intros s b s1 e H. unfold emit in *. now injection H as <- <-.
  - intros s. exists [], tt. eexists. reflexivity.
Qed.

Lemma steady_load a : steady (load a).
Proof.
  split.
  - intros s b s1 e H. apply load_inv in H as [-> ->]. reflexivity.
  - intros s. exists []. do 2 eexists. reflexivity.
Qed.

Lemma steady_store a v : steady (store a v).
Proof.
  split.
  - intros s b s1 e H. unfold store in *. now injection H as <- <-.
  - intros s. exists [], tt. eexists. reflexivity.
Qed.

Lemma steady_respond {A} (decode : Z -> A) ev : steady (respond decode ev).
Proof.
  split.
  - intros s b s1 e H. unfold respond in *. simpl.
    destruct (script s) as [|z rest]; [discriminate|]. now injection H as <- <-.
  - intros s. exists [0]. unfold respond. simpl.
    destruct (script s); simpl; do 2 eexists; reflexivity.
Qed.

Lemma steady_bind {A B} (m : M A) (k : A -> M B) :
  steady m -> (forall a, steady (k a)) -> steady (bind m k).
Proof.
  intros [Fm Lm] Hk. split.
  - intros s b s2 e H. apply bind_inv in H as (a & s1 & H1 & H2).
    erewrite bind_some by (apply Fm; exact H1). now apply (Hk a).
  - intros s. destruct (Lm s) as (e1 & a & s1 & H1).
    destruct (Hk a) as [_ Lk]. destruct (Lk s1) as (e2 & b & s2 & H2).
    exists (e1 ++ e2), b, s2. rewrite <- extend_app.
    erewrite bind_some by (apply Fm; exact H1). exact H2.
Qed.

Lemma spin_step cond test ev (Hc : reads cond test ev) m y sc t :
  test y = true ->
  spin cond (mkMachine m (y :: sc) t) = spin cond (mkMachine m sc (t ++ [ev y])).
Proof.
  intros Hy. unfold spin at 1. cbn [script length].
  change (while_fuel (S (S (length sc))) cond)
    with (c <- cond ;; if c then while_fuel (S (length sc)) cond else ret tt).
  unfold bind. rewrite Hc. cbn [script mem trace]. now rewrite Hy.
Qed.

Lemma spin_total cond test ev (Hc : reads cond test ev) fails :
  forall m z rest t,
    Forall (fun y => test y = true) fails -> test z = false ->
    spin cond (mkMachine m (fails ++ z :: rest) t)
    = Some (tt, mkMachine m rest (t ++ map ev fails ++ [ev z])).
Proof.
  induction fails as [|y fails IH]; intros m z rest t Hf Hz.
  - now apply (spin_ready _ _ _ Hc).
  - inversion Hf as [|? ? Hy Hf']; subst. cbn [app].
    rewrite (spin_step _ _ _ Hc) by exact Hy.
    rewrite IH by assumption. simpl. now rewrite <- app_assoc.
Qed.

(** The fuel of [spin] is never what stops a wait: any larger fuel gives
    the same result. *)
Lemma while_fuel_enough cond test ev (Hc : reads cond test ev) :
  forall fuel s,
    (length (script s) < fuel)%nat -> while_fuel fuel cond s = spin cond s.
Proof.
  induction fuel as [|fuel IH]; intros [m sc t] Hlt; [inversion Hlt|].
  unfold spin. cbn [script] in *. destruct sc as [|z rest].
  - cbn [while_fuel length]. unfold bind. now rewrite !Hc.
  - cbn [length].
    change (while_fuel (S (S (length rest))) cond)
      with (c <- cond ;; if c then while_fuel (S (length rest)) cond else ret tt).
    cbn [while_fuel]. unfold bind. rewrite Hc. cbn [script mem trace].
    destruct (test z); [|reflexivity].
    rewrite IH by (cbn [script length] in *; lia). reflexivity.
Qed.

(** A wait does not return exactly when none of the remaining answers
    ends it. *)
Lemma spin_none_iff cond test ev (Hc : reads cond test ev) sc :
  forall m t,
    spin cond (mkMachine m sc t) = None <-> Forall (fun y => test y = true) sc.
Proof.
  induction sc as [|y sc IH]; intros m t.
  - split; [constructor|]. intros _. unfold spin. cbn [script length while_fuel].
    unfold bind. now rewrite Hc.
  - destruct (test y) eqn:Ey.
    + rewrite (spin_step _ _ _ Hc) by exact Ey. rewrite IH. split.
      * now constructor.
      * intros H. now inversion H.
    + rewrite (spin_ready _ _ _ Hc) by exact Ey. split; [discriminate|].
      intros H. inversion H. congruence.
Qed.

Lemma first_false (test : Z -> bool) l :
  (exists z, In z l /\ test z = false) ->
  exists fails z rest,
    l = fails ++ z :: rest /\
    Forall (fun y => test y = true) fails /\ test z = false.
Proof.
  induction l as [|x l IH]; intros (z & Hin & Hz); [destruct Hin|].
  destruct (test x) eqn:Ex.
  - destruct IH as (fails & z' & rest & -> & Hf & Hz').
    + destruct Hin as [-> | Hin]; [congruence | eauto].
    + exists (x :: fails), z', rest. auto.
  - exists [], x, l. auto.
Qed.

Lemma steady_spin cond test ev z0 :
  reads cond test ev -> test z0 = false -> steady (spin cond).
Proof.
  intros Hc Hz0. split.
  - intros s u s1 e H.
    apply (while_fuel_reads _ _ _ Hc) in H as (Hm & fails & z & Es & Hf & Hz & Ht).
    destruct s as [m sc t], s1 as [m1 sc1 t1]. destruct u.
    unfold extend. simpl in *. subst.
    rewrite <- app_assoc. simpl. now apply (spin_total _ _ _ Hc).
  - intros s. exists [z0].
    destruct (first_false test (script s ++ [z0])) as (fails & z & rest & E & Hf & Hz).
    { exists z0. split; [apply in_or_app; right; now left | exact Hz0]. }
    unfold extend. rewrite E. do 2 eexists. now apply (spin_total _ _ _ Hc).
Qed.

Lemma steady_wait_while_set f : steady (wait_while_set f).
Proof. exact (steady_spin _ _ _ 0 (reads_flag_get f) eq_refl). Qed.

Lemma steady_wait_until_set f : steady (wait_until_set f).
Proof. exact (steady_spin _ _ _ 1 (reads_flag_unset f) eq_refl). Qed.

Lemma steady_wait_stop_clear : steady wait_stop_clear.
Proof. exact (steady_spin _ _ _ 0 reads_stop_bit eq_refl). Qed.

Ltac steady_steps :=
  repeat first
    [ apply steady_ret | apply steady_emit | apply steady_load
    | apply steady_store | apply steady_respond
    | apply steady_wait_while_set | apply steady_wait_until_set
    | apply steady_wait_stop_clear
    | apply steady_bind; [|intros] ].

Lemma steady_write_loop n : forall data, steady (write_loop n data).
Proof.
  induction n as [|n IH]; intros data; cbn [write_loop]; steady_steps. apply IH.
Qed.

Lemma steady_read_loop n : forall i data count, steady (read_loop n i data count).
Proof.
  induction n as [|n IH]; intros i data count; cbn [read_loop].
  - steady_steps.
  - apply steady_bind; [destruct (count - 3 =? i); steady_steps|].
    intros _. steady_steps. apply IH.
Qed.

Lemma steady_bsp_i2c0_write addr data count :
  steady (bsp_i2c0_write addr data count).
Proof.
  unfold bsp_i2c0_write. destruct (count <? 1); [apply steady_ret|].
  steady_steps. apply steady_write_loop.
Qed.

Lemma steady_bsp_i2c0_read addr data count :
  steady (bsp_i2c0_read addr data count).
Proof.
  unfold bsp_i2c0_read. destruct (count <? 1); [apply steady_ret|].
  do 7 (apply steady_bind; [steady_steps | intros _]).
  apply steady_bind; [|intros _; steady_steps].
  destruct (3 <=? count); [apply steady_read_loop|].
  destruct (count =? 2); steady_steps.
Qed.

Lemma steady_bsp_i2c0_reg8_write txbuffer addr reg value :
  steady (bsp_i2c0_reg8_write txbuffer addr reg value).
Proof.
  unfold bsp_i2c0_reg8_write.
  do 2 (apply steady_bind; [apply steady_store | intros _]).
  apply steady_bind; [apply steady_bsp_i2c0_write | intros _; apply steady_ret].
Qed.

Lemma steady_bsp_i2c0_reg8_read addr reg value :
  steady (bsp_i2c0_reg8_read addr reg value).
Proof.
  unfold bsp_i2c0_reg8_read.
  apply steady_bind; [apply steady_bsp_i2c0_write | intros _].
  apply steady_bind; [apply steady_bsp_i2c0_read | intros _; apply steady_ret].
Qed.

(** ** Runs against a peripheral with latency *)

Lemma Forall_repeat {A} (P : A -> Prop) (x : A) n : P x -> Forall P (repeat x n).
Proof. intros Hx. induction n; simpl; constructor; auto. Qed.

Lemma wait_while_set_late f k m sc t :
  wait_while_set f (mkMachine m (late_clear k ++ sc) t)
  = Some (tt, mkMachine m sc
                (t ++ repeat (Ev_flag_get f true) k ++ [Ev_flag_get f false])).
Proof.
  unfold late_clear, wait_while_set. rewrite <- app_assoc. cbn [app].
  rewrite (spin_total _ _ _ (reads_flag_get f));
    [| now apply Forall_repeat | reflexivity].
  now rewrite map_repeat.
Qed.

Lemma wait_until_set_late f k m sc t :
  wait_until_set f (mkMachine m (late_set k ++ sc) t)
  = Some (tt, mkMachine m sc
                (t ++ repeat (Ev_flag_get f false) k ++ [Ev_flag_get f true])).
Proof.
  unfold late_set, wait_until_set. rewrite <- app_assoc. cbn [app].
  rewrite (spin_total _ _ _ (reads_flag_unset f));
    [| now apply Forall_repeat | reflexivity].
  now rewrite map_repeat.
Qed.

Lemma wait_stop_clear_late k m sc t :
  wait_stop_clear (mkMachine m (late_stop k ++ sc) t)
  = Some (tt, mkMachine m sc
                (t ++ repeat (Ev_ctl0_read 0x0200) k ++ [Ev_ctl0_read 0])).
Proof.
  unfold late_stop, wait_stop_clear. rewrite <- app_assoc. cbn [app].
  rewrite (spin_total _ _ _ reads_stop_bit);
    [| now apply Forall_repeat | reflexivity].
  now rewrite map_repeat.
Qed.

Lemma bind_assoc {A B C} (m : M A) (k : A -> M B) (h : B -> M C) s :
  bind (bind m k) h s = bind m (fun a => bind (k a) h) s.
Proof. unfold bind. destruct (m s) as [[a s1]|]; reflexivity. Qed.

(** Runs the leading steps, each wait taking its late answer. *)
Ltac late_steps :=
  repeat (first [ rewrite bind_assoc
                | erewrite bind_some by reflexivity
                | erewrite bind_some by apply wait_while_set_late
                | erewrite bind_some by apply wait_until_set_late
                | erewrite bind_some by apply wait_stop_clear_late ];
          cbn [mem script trace]).

Lemma write_loop_late k n :
  forall data m sc t,
  exists t', write_loop n data (mkMachine m (late_tx k n ++ sc) t)
             = Some (tt, mkMachine m sc t').
Proof.
  induction n as [|n IH]; intros data m sc t; cbn [write_loop late_tx].
  - eexists. reflexivity.
  - rewrite <- app_assoc. late_steps. apply IH.
Qed.

Lemma bsp_i2c0_write_late addr data count k m sc t :
  1 <= count ->
  exists t',
    bsp_i2c0_write addr data count
      (mkMachine m (late_write k (Z.to_nat count) ++ sc) t)
    = Some (BSP_I2C_OK, mkMachine m sc t').
Proof.
  intros Hc. unfold bsp_i2c0_write.
  destruct (count <? 1) eqn:E; [apply Z.ltb_lt in E; lia|]. clear E.
  unfold late_write. rewrite <- !app_assoc. late_steps.
  match goal with
  | |- context [bind (write_loop ?n ?d) _ (mkMachine ?m0 (_ ++ ?sc0) ?t0)] =>
      destruct (write_loop_late k n d m0 sc0 t0) as [t1 H]
  end.
  erewrite bind_some by exact H. late_steps. eexists. reflexivity.
Qed.

Lemma late_rx_step k d n sc :
  late_rx k d (S n) ++ sc = late_set k ++ d :: late_rx k d n ++ sc.
Proof. cbn [late_rx]. unfold late_byte. now rewrite <- !app_assoc. Qed.

Lemma read_loop_late_rx k d n :
  forall i data count m sc t,
    count - 3 < i ->
    exists m' t',
      read_loop n i data count (mkMachine m (late_rx k d n ++ sc) t)
      = Some (tt, mkMachine m' sc t').
Proof.
  induction n as [|n IH]; intros i data count m sc t Hi.
  - do 2 eexists. reflexivity.
  - rewrite late_rx_step. cbn [read_loop].
    destruct (count - 3 =? i) eqn:E; [apply Z.eqb_eq in E; lia|].
    late_steps. apply IH. lia.
Qed.

Lemma read_loop_early_rx k d n :
  forall i data count m sc t,
    i <= count - 3 ->
    i + Z.of_nat n = count ->
    exists m' t',
      read_loop n i data count
        (mkMachine m (late_rx k d (Z.to_nat (count - 3 - i)) ++
                      late_set k ++ late_rx k d 3 ++ sc) t)
      = Some (tt, mkMachine m' sc t').
Proof.
  induction n as [|n IH]; intros i data count m sc t Hi Hn; [lia|].
  cbn [read_loop]. destruct (count - 3 =? i) eqn:E.
  - apply Z.eqb_eq in E. assert (n = 2%nat) by lia. subst n.
    replace (Z.to_nat (count - 3 - i)) with 0%nat by lia.
    change (late_rx k d 0) with (@nil Z). cbn [app].
    rewrite (late_rx_step k d 2). late_steps.
    apply read_loop_late_rx. lia.
  - apply Z.eqb_neq in E.
    replace (Z.to_nat (count - 3 - i))
      with (S (Z.to_nat (count - 3 - (i + 1)))) by lia.
    rewrite late_rx_step. late_steps. apply IH; lia.
Qed.

Lemma bsp_i2c0_read_late addr data count k d m sc t :
  1 <= count ->
  exists m' t',
    bsp_i2c0_read addr data count (mkMachine m (late_read k d count ++ sc) t)
    = Some (BSP_I2C_OK, mkMachine m' sc t').
Proof.
  intros Hc. unfold bsp_i2c0_read, late_read.
  destruct (count <? 1) eqn:E; [apply Z.ltb_lt in E; lia|]. clear E.
  destruct (3 <=? count) eqn:E3.
  - apply Z.leb_le in E3. cbv beta iota. rewrite <- !app_assoc. late_steps.
    match goal with
    | |- context [bind (read_loop ?n ?i ?dd ?c) _ (mkMachine ?m0 _ ?t0)] =>
        destruct (read_loop_early_rx k d n i dd c m0 (late_stop k ++ sc) t0)
          as (m1 & t1 & H); [lia | lia |]
    end.
    rewrite Z.sub_0_r in H.
    erewrite bind_some by exact H. late_steps. do 2 eexists. reflexivity.
  - apply Z.leb_gt in E3. assert (count = 1 \/ count = 2) as [-> | ->] by lia.
    + change (Z.to_nat 1) with 1%nat. change (1 =? 2) with false.
      cbv beta iota. rewrite <- !app_assoc.
      rewrite !late_rx_step. change (late_rx k d 0) with (@nil Z). cbn [app].
      late_steps. do 2 eexists. reflexivity.
    + change (Z.to_nat 2) with 2%nat. change (2 =? 2) with true.
      cbv beta iota. rewrite <- !app_assoc.
      rewrite !late_rx_step. change (late_rx k d 0) with (@nil Z). cbn [app].
      late_steps. do 2 eexists. reflexivity.
Qed.

(** * The four driver operations *)

(** C1: bsp_i2c0_reg8_read hands [(uint8_t* )reg] to bsp_i2c0_write, so
    the one byte of its write transaction is the byte stored at address
    [reg], whatever the number [reg] is; the one-byte read that follows
    stores the received byte into [*value]. *)
Theorem bsp_i2c0_reg8_read_sends_byte_at_address_reg
        addr reg value s r s' :
  bsp_i2c0_reg8_read addr reg value s = Some (r, s') ->
  exists b l,
    trace s' = trace s ++ l /\
    (write_transaction addr [mem s reg] +++
     read_transaction addr (rx_phase 1 [b])) l /\
    transmitted l = [mem s reg] /\
    received l = [b] /\
    mem s' value = b.
Proof.
  intros H. apply bsp_i2c0_reg8_read_inv in H as (_ & b & (l & Ht & Hl) & Hm).
  exists b, l. split; [exact Ht|]. split; [exact Hl|]. split; [|split].
  - exact (picks_cat tx_of _ _ _ _
             (picks_write_transaction addr [mem s reg])
             (picks_read_transmitted addr 1 [b]) l Hl).
  - exact (picks_cat rx_of _ _ _ _
             (picks_write_received addr [mem s reg])
             (picks_read_received addr 1 [b]) l Hl).
  - now rewrite Hm, upd_same.
Qed.

Lemma bsp_i2c0_reg8_read_sends_byte_at_address_reg_run :
  exists s',
    bsp_i2c0_reg8_read 80 5 100 (bench (prompt 5 ++ prompt 6))
    = Some (BSP_I2C_OK, s') /\
    exists b l,
      trace s' = [] ++ l /\
      (write_transaction 80 [170] +++ read_transaction 80 (rx_phase 1 [b])) l /\
      transmitted l = [170] /\
      received l = [b] /\
      mem s' 100 = b.
Proof.
  eexists. split; [vm_compute; reflexivity|].
  apply (bsp_i2c0_reg8_read_sends_byte_at_address_reg
           80 5 100 (bench (prompt 5 ++ prompt 6)) BSP_I2C_OK).
  vm_compute. reflexivity.
Defined.

(** C2: a completed bsp_i2c0_read of [count >= 1] bytes receives exactly
    [count] bytes, each after a poll of RBNE.  For [count >= 3] it disables
    the acknowledge once, after a poll of BTC, when exactly three bytes are
    still to be received; for [count] 1 and 2 it never disables it. *)
Theorem bsp_i2c0_read_receive_path addr data count s r s' :
  1 <= count ->
  bsp_i2c0_read addr data count s = Some (r, s') ->
  exists bs l,
    length bs = Z.to_nat count /\
    trace s' = trace s ++ l /\
    read_transaction addr (rx_phase count bs) l /\
    received l = bs /\
    count_ev is_receive l = Z.to_nat count /\
    count_ev is_ack_disable l = (if 3 <=? count then 1%nat else 0%nat) /\
    (3 <= count -> length (skipn (Z.to_nat (count - 3)) bs) = 3%nat).
Proof.
  intros Hc H.
  apply bsp_i2c0_read_inv in H as (_ & bs & Hlen & (l & Ht & Hl) & _); [|exact Hc].
  exists bs, l. repeat split; auto.
  - now apply (picks_read_received addr count bs).
  - now apply (counts_read_receive addr count bs).
  - now apply (counts_read_ack_disable addr count bs).
  - intros H3. rewrite length_skipn. lia.
Qed.

Lemma bsp_i2c0_read_receive_path_two_bytes :
  1 <= 2 /\
  exists s',
    bsp_i2c0_read 80 100 2 (bench (prompt 8)) = Some (BSP_I2C_OK, s') /\
    exists bs l,
      length bs = 2%nat /\
      trace s' = [] ++ l /\
      read_transaction 80 (poll_set I2C_FLAG_BTC +++ rx_bytes bs) l /\
      received l = bs /\
      count_ev is_receive l = 2%nat /\
      count_ev is_ack_disable l = 0%nat /\
      (3 <= 2 -> length (skipn 0 bs) = 3%nat).
Proof.
  split; [lia|]. eexists. split; [vm_compute; reflexivity|].
  apply (bsp_i2c0_read_receive_path 80 100 2 (bench (prompt 8)) BSP_I2C_OK);
    [lia | vm_compute; reflexivity].
Defined.

(** C3: bsp_i2c0_write and bsp_i2c0_read return FAIL exactly when
    [count < 1], and then the machine is as before the call: nothing was
    read from or written to the peripheral and no byte was stored.  With
    [count >= 1] the only result is OK; it is produced at once by a
    peripheral that is always ready, and from any machine once the
    peripheral gives the answers the waits are looking for. *)
Theorem zero_count_fails_before_any_access addr data count s :
  (count < 1 ->
   bsp_i2c0_write addr data count s = Some (BSP_I2C_FAIL, s) /\
   bsp_i2c0_read addr data count s = Some (BSP_I2C_FAIL, s)) /\
  (forall r s',
      bsp_i2c0_write addr data count s = Some (r, s') ->
      (r = BSP_I2C_FAIL <-> count < 1) /\ (r = BSP_I2C_OK <-> 1 <= count)) /\
  (forall r s',
      bsp_i2c0_read addr data count s = Some (r, s') ->
      (r = BSP_I2C_FAIL <-> count < 1) /\ (r = BSP_I2C_OK <-> 1 <= count)) /\
  (1 <= count ->
   (forall sc,
       (exists s', bsp_i2c0_write addr data count
                     (mkMachine (mem s) (prompt (Z.to_nat count + 4) ++ sc) (trace s))
                   = Some (BSP_I2C_OK, s') /\ script s' = sc) /\
       (exists s', bsp_i2c0_read addr data count
                     (mkMachine (mem s) (prompt (2 * Z.to_nat count + 4) ++ sc) (trace s))
                   = Some (BSP_I2C_OK, s') /\ script s' = sc)) /\
   (exists e s', bsp_i2c0_write addr data count (extend s e) = Some (BSP_I2C_OK, s')) /\
   (exists e s', bsp_i2c0_read addr data count (extend s e) = Some (BSP_I2C_OK, s'))).
Proof.
  split; [|split; [|split]].
  - intros Hlt. split; [now apply bsp_i2c0_write_fail | now apply bsp_i2c0_read_fail].
  - intros r s' H. destruct (Z.lt_ge_cases count 1) as [Hlt|Hge].
    + rewrite bsp_i2c0_write_fail in H by exact Hlt. injection H as <- _.
      repeat split; intros; try lia; try reflexivity; discriminate.
    + apply bsp_i2c0_write_inv in H as [-> _]; [|exact Hge].
      repeat split; intros; try lia; try reflexivity; discriminate.
  - intros r s' H. destruct (Z.lt_ge_cases count 1) as [Hlt|Hge].
    + rewrite bsp_i2c0_read_fail in H by exact Hlt. injection H as <- _.
      repeat split; intros; try lia; try reflexivity; discriminate.
    + apply bsp_i2c0_read_inv in H as [-> _]; [|exact Hge].
      repeat split; intros; try lia; try reflexivity; discriminate.
  - intros Hge. split; [|split].
    + intros sc. split.
      * destruct (bsp_i2c0_write_returns addr data count (mem s) sc (trace s))
          as [t' Ht]; [assumption|]. eexists. split; [exact Ht | reflexivity].
      * destruct (bsp_i2c0_read_returns addr data count (mem s) sc (trace s))
          as (m' & t' & Ht); [assumption|]. eexists. split; [exact Ht | reflexivity].
    + destruct (proj2 (steady_bsp_i2c0_write addr data count) s) as (e & r & s' & H).
      exists e, s'. rewrite H. f_equal. f_equal.
      now apply bsp_i2c0_write_inv in H as [-> _].
    + destruct (proj2 (steady_bsp_i2c0_read addr data count) s) as (e & r & s' & H).
      exists e, s'. rewrite H. f_equal. f_equal.
      now apply bsp_i2c0_read_inv in H as [-> _].
Qed.

Lemma zero_count_fails_before_any_access_run :
  0 < 1 /\
  bsp_i2c0_write 80 100 0 (bench [0; 1; 1]) = Some (BSP_I2C_FAIL, bench [0; 1; 1]) /\
  bsp_i2c0_read 80 100 0 (bench [0; 1; 1]) = Some (BSP_I2C_FAIL, bench [0; 1; 1]).
Proof.
  split; [lia|].
  apply (proj1 (zero_count_fails_before_any_access 80 100 0 (bench [0; 1; 1]))).
  lia.
Defined.

(** C4: bsp_i2c0_reg8_write and bsp_i2c0_reg8_read drop the status of the
    calls they make and report OK: OK is their only result, and they
    produce it whenever the inner calls return. *)
Theorem reg8_operations_report_ok txbuffer addr reg value ptr s :
  (forall r s',
      bsp_i2c0_reg8_write txbuffer addr reg value s = Some (r, s') ->
      r = BSP_I2C_OK) /\
  (forall r s',
      bsp_i2c0_reg8_read addr reg ptr s = Some (r, s') -> r = BSP_I2C_OK) /\
  bsp_i2c0_reg8_write txbuffer addr reg value s
  = match bsp_i2c0_write addr txbuffer 2
            (mkMachine (upd (upd (mem s) txbuffer reg) (txbuffer + 1) value)
                       (script s) (trace s)) with
    | Some (_, s') => Some (BSP_I2C_OK, s')
    | None => None
    end /\
  bsp_i2c0_reg8_read addr reg ptr s
  = match bsp_i2c0_write addr reg 1 s with
    | Some (_, s1) =>
        match bsp_i2c0_read addr ptr 1 s1 with
        | Some (_, s2) => Some (BSP_I2C_OK, s2)
        | None => None
        end
    | None => None
    end /\
  (forall sc,
      exists s',
        bsp_i2c0_reg8_write txbuffer addr reg value
          (mkMachine (mem s) (prompt 6 ++ sc) (trace s))
        = Some (BSP_I2C_OK, s') /\ script s' = sc) /\
  (forall sc,
      exists s',
        bsp_i2c0_reg8_read addr reg ptr
          (mkMachine (mem s) (prompt 5 ++ prompt 6 ++ sc) (trace s))
        = Some (BSP_I2C_OK, s') /\ script s' = sc) /\
  (exists e s',
      bsp_i2c0_reg8_write txbuffer addr reg value (extend s e)
      = Some (BSP_I2C_OK, s')) /\
  (exists e s',
      bsp_i2c0_reg8_read addr reg ptr (extend s e) = Some (BSP_I2C_OK, s')).
Proof.
  split; [|split; [|split; [|split; [|split; [|split; [|split]]]]]].
  - intros r s' H. now apply bsp_i2c0_reg8_write_inv in H.
  - intros r s' H. now apply bsp_i2c0_reg8_read_inv in H.
  - reflexivity.
  - unfold bsp_i2c0_reg8_read, bind.
    destruct (bsp_i2c0_write addr reg 1 s) as [[r1 s1]|]; [|reflexivity].
    destruct (bsp_i2c0_read addr ptr 1 s1) as [[r2 s2]|]; reflexivity.
  - intros sc.
    destruct (bsp_i2c0_reg8_write_returns txbuffer addr reg value (mem s) sc (trace s))
      as (m' & t' & H).
    eexists. split; [exact H | reflexivity].
  - intros sc.
    destruct (bsp_i2c0_reg8_read_returns addr reg ptr (mem s) sc (trace s))
      as (m' & t' & H).
    eexists. split; [exact H | reflexivity].
  - destruct (proj2 (steady_bsp_i2c0_reg8_write txbuffer addr reg value) s)
      as (e & r & s' & H).
    exists e, s'. rewrite H. f_equal. f_equal.
    now apply bsp_i2c0_reg8_write_inv in H as [-> _].
  - destruct (proj2 (steady_bsp_i2c0_reg8_read addr reg ptr) s)
      as (e & r & s' & H).
    exists e, s'. rewrite H. f_equal. f_equal.
    now apply bsp_i2c0_reg8_read_inv in H as [-> _].
Qed.

Lemma reg8_operations_report_ok_run :
  exists s1 s2,
    bsp_i2c0_reg8_write 1000 80 5 9 (bench (prompt 6)) = Some (BSP_I2C_OK, s1) /\
    bsp_i2c0_reg8_read 80 5 100 (bench (prompt 5 ++ prompt 6))
    = Some (BSP_I2C_OK, s2).
Proof.
  destruct (reg8_operations_report_ok 1000 80 5 9 100 (bench []))
    as (_ & _ & _ & _ & Hw & Hr & _).
  destruct (Hw []) as (s1 & H1 & _). destruct (Hr []) as (s2 & H2 & _).
  exists s1, s2. split; [exact H1 | exact H2].
Defined.

(** C5: bsp_i2c0_reg8_write is one call of bsp_i2c0_write with count 2 on
    the buffer [txbuffer], which then holds [reg] and [value] in that
    order; the trace of a completed call is one write transaction of the
    two bytes [reg], [value]. *)
Theorem bsp_i2c0_reg8_write_single_write txbuffer addr reg value s :
  buffer (upd (upd (mem s) txbuffer reg) (txbuffer + 1) value) txbuffer 2
  = [reg; value] /\
  bsp_i2c0_reg8_write txbuffer addr reg value s
  = match bsp_i2c0_write addr txbuffer 2
            (mkMachine (upd (upd (mem s) txbuffer reg) (txbuffer + 1) value)
                       (script s) (trace s)) with
    | Some (_, s') => Some (BSP_I2C_OK, s')
    | None => None
    end /\
  (forall r s',
      bsp_i2c0_reg8_write txbuffer addr reg value s = Some (r, s') ->
      exists l,
        trace s' = trace s ++ l /\
        write_transaction addr [reg; value] l /\
        transmitted l = [reg; value]).
Proof.
  split; [|split].
  - simpl. now rewrite upd_same, upd_other, upd_same by lia.
  - reflexivity.
  - intros r s' H. apply bsp_i2c0_reg8_write_inv in H as (_ & (l & Ht & Hl) & _).
    exists l. repeat split; auto. now apply (picks_write_transaction addr).
Qed.

Lemma bsp_i2c0_reg8_write_single_write_run :
  exists s',
    bsp_i2c0_reg8_write 1000 80 5 9 (bench (prompt 6)) = Some (BSP_I2C_OK, s') /\
    exists l,
      trace s' = [] ++ l /\
      write_transaction 80 [5; 9] l /\
      transmitted l = [5; 9].
Proof.
  eexists. split; [vm_compute; reflexivity|].
  apply (proj2 (proj2 (bsp_i2c0_reg8_write_single_write
                         1000 80 5 9 (bench (prompt 6)))) BSP_I2C_OK).
  vm_compute. reflexivity.
Defined.

(** C6: a bsp_i2c0_write of [count >= 1] bytes accesses the peripheral in
    this order: poll I2CBSY until clear, start, poll SBSEND, address
    [addr << 1] (bit 0 clear) as transmitter, poll ADDSEND, clear ADDSEND,
    poll TBE, then for each [i] from 0 to [count - 1] transmit [data[i]]
    and poll TBE, then stop and poll the STOP bit of CTL0 until clear.
    Every completed call has this trace, and the call does complete: at
    once on a peripheral that is always ready, after [k] vain looks per
    wait on a peripheral with latency [k], and from any machine once the
    peripheral gives the answers the waits are looking for. *)
Theorem bsp_i2c0_write_order addr data count :
  1 <= count ->
  (forall s r s',
      bsp_i2c0_write addr data count s = Some (r, s') ->
      (exists l,
          trace s' = trace s ++ l /\
          write_transaction addr (buffer (mem s) data (Z.to_nat count)) l /\
          transmitted l = buffer (mem s) data (Z.to_nat count)) /\
      length (buffer (mem s) data (Z.to_nat count)) = Z.to_nat count /\
      (forall i, (i < Z.to_nat count)%nat ->
                 nth i (buffer (mem s) data (Z.to_nat count)) 0
                 = mem s (data + Z.of_nat i))) /\
  Z.testbit (Z.shiftl addr 1) 0 = false /\
  (forall m sc t,
      exists s' l,
        bsp_i2c0_write addr data count
          (mkMachine m (prompt (Z.to_nat count + 4) ++ sc) t)
        = Some (BSP_I2C_OK, s') /\
        script s' = sc /\
        trace s' = t ++ l /\
        write_transaction addr (buffer m data (Z.to_nat count)) l /\
        transmitted l = buffer m data (Z.to_nat count)) /\
  (forall k m sc t,
      exists s' l,
        bsp_i2c0_write addr data count
          (mkMachine m (late_write k (Z.to_nat count) ++ sc) t)
        = Some (BSP_I2C_OK, s') /\
        script s' = sc /\
        trace s' = t ++ l /\
        write_transaction addr (buffer m data (Z.to_nat count)) l /\
        transmitted l = buffer m data (Z.to_nat count)) /\
  (forall s,
      exists e s' l,
        bsp_i2c0_write addr data count (extend s e) = Some (BSP_I2C_OK, s') /\
        trace s' = trace s ++ l /\
        write_transaction addr (buffer (mem s) data (Z.to_nat count)) l /\
        transmitted l = buffer (mem s) data (Z.to_nat count)).
Proof.
  intros Hc.
  assert (Hrun : forall s r s',
             bsp_i2c0_write addr data count s = Some (r, s') ->
             r = BSP_I2C_OK /\
             exists l,
               trace s' = trace s ++ l /\
               write_transaction addr (buffer (mem s) data (Z.to_nat count)) l /\
               transmitted l = buffer (mem s) data (Z.to_nat count)).
  { intros s r s' H.
    apply bsp_i2c0_write_inv in H as (Hr & _ & l & Ht & Hl); [|exact Hc].
    split; [exact Hr|]. exists l. repeat split; auto.
    exact (picks_write_transaction addr _ l Hl). }
  split; [|split; [|split; [|split]]].
  - intros s r s' H. split; [exact (proj2 (Hrun s r s' H))|].
    split; [apply buffer_length|]. intros i Hi. now apply buffer_nth.
  - apply Z.shiftl_spec_low. lia.
  - intros m sc t.
    destruct (bsp_i2c0_write_returns addr data count m sc t Hc) as [t' H].
    destruct (Hrun _ _ _ H) as (_ & l & Ht & Hl & Hx).
    exists (mkMachine m sc t'), l. repeat split; auto.
  - intros k m sc t.
    destruct (bsp_i2c0_write_late addr data count k m sc t Hc) as [t' H].
    destruct (Hrun _ _ _ H) as (_ & l & Ht & Hl & Hx).
    exists (mkMachine m sc t'), l. repeat split; auto.
  - intros s.
    destruct (proj2 (steady_bsp_i2c0_write addr data count) s) as (e & r & s' & H).
    destruct (Hrun _ _ _ H) as (-> & l & Ht & Hl & Hx).
    exists e, s', l. repeat split; auto.
Qed.

Lemma bsp_i2c0_write_order_run :
  1 <= 2 /\
  (exists s' l,
      bsp_i2c0_write 80 100 2 (bench (prompt 6)) = Some (BSP_I2C_OK, s') /\
      script s' = [] /\
      trace s' = [] ++ l /\
      write_transaction 80 [17; 34] l /\
      transmitted l = [17; 34]) /\
  (exists s' l,
      bsp_i2c0_write 80 100 2 (bench (late_write 3 2)) = Some (BSP_I2C_OK, s') /\
      script s' = [] /\
      trace s' = [] ++ l /\
      write_transaction 80 [17; 34] l /\
      transmitted l = [17; 34]).
Proof.
  split; [lia|].
  destruct (bsp_i2c0_write_order 80 100 2 ltac:(lia)) as (_ & _ & Hp & Hl & _).
  split; [exact (Hp bench_mem [] []) | exact (Hl 3%nat bench_mem [] [])].
Defined.

(** C7: after its last byte-receive a bsp_i2c0_read of [count >= 1] bytes
    asserts the stop condition, polls the STOP bit of CTL0 until clear,
    sets the acknowledge position to "current" and enables the
    acknowledge, in that order and for every [count]; so a completed read
    leaves the acknowledge enabled and its position "current".  The read
    does complete for every [count >= 1]: at once on a peripheral that is
    always ready, after [k] vain looks per wait on a peripheral with
    latency [k], and from any machine once the peripheral gives the
    answers the waits are looking for. *)
Theorem bsp_i2c0_read_closes_transaction addr data count :
  1 <= count ->
  (forall s r s' a0 p0,
      bsp_i2c0_read addr data count s = Some (r, s') ->
      (exists pre b post,
          trace s' = trace s ++ pre ++ [Ev_data_receive b] ++ post /\
          read_epilogue post /\
          count_ev is_receive post = 0%nat) /\
      ack_after a0 (trace s') = I2C_ACK_ENABLE /\
      ackpos_after p0 (trace s') = I2C_ACKPOS_CURRENT) /\
  (forall m sc t a0 p0,
      exists s',
        bsp_i2c0_read addr data count
          (mkMachine m (prompt (2 * Z.to_nat count + 4) ++ sc) t)
        = Some (BSP_I2C_OK, s') /\
        script s' = sc /\
        (exists pre b post,
            trace s' = t ++ pre ++ [Ev_data_receive b] ++ post /\
            read_epilogue post /\
            count_ev is_receive post = 0%nat) /\
        ack_after a0 (trace s') = I2C_ACK_ENABLE /\
        ackpos_after p0 (trace s') = I2C_ACKPOS_CURRENT) /\
  (forall k d m sc t a0 p0,
      exists s',
        bsp_i2c0_read addr data count
          (mkMachine m (late_read k d count ++ sc) t)
        = Some (BSP_I2C_OK, s') /\
        script s' = sc /\
        (exists pre b post,
            trace s' = t ++ pre ++ [Ev_data_receive b] ++ post /\
            read_epilogue post /\
            count_ev is_receive post = 0%nat) /\
        ack_after a0 (trace s') = I2C_ACK_ENABLE /\
        ackpos_after p0 (trace s') = I2C_ACKPOS_CURRENT) /\
  (forall s a0 p0,
      exists e s',
        bsp_i2c0_read addr data count (extend s e) = Some (BSP_I2C_OK, s') /\
        ack_after a0 (trace s') = I2C_ACK_ENABLE /\
        ackpos_after p0 (trace s') = I2C_ACKPOS_CURRENT).
Proof.
  intros Hc.
  assert (Hrun : forall s r s' a0 p0,
             bsp_i2c0_read addr data count s = Some (r, s') ->
             r = BSP_I2C_OK /\
             (exists pre b post,
                 trace s' = trace s ++ pre ++ [Ev_data_receive b] ++ post /\
                 read_epilogue post /\
                 count_ev is_receive post = 0%nat) /\
             ack_after a0 (trace s') = I2C_ACK_ENABLE /\
             ackpos_after p0 (trace s') = I2C_ACKPOS_CURRENT).
  { intros s r s' a0 p0 H.
    apply bsp_i2c0_read_inv in H as (Hr & bs & Hlen & (l & Ht & Hl) & _);
      [|exact Hc].
    split; [exact Hr|].
    destruct Hl as (pro & rest & -> & _ & rx & post & -> & Hrx & Hpost).
    apply rx_phase_last in Hrx as (pre & b & ->); [|exact Hc|exact Hlen].
    split.
    - exists (pro ++ pre), b, post. split; [|split].
      + rewrite Ht. now rewrite <- !app_assoc.
      + exact Hpost.
      + now apply counts_read_epilogue_receive.
    - destruct (read_epilogue_end post Hpost) as (mid & ->).
      rewrite Ht, !app_assoc.
      split; [apply ack_after_end | apply ackpos_after_end]. }
  split; [|split; [|split]].
  - intros s r s' a0 p0 H. exact (proj2 (Hrun s r s' a0 p0 H)).
  - intros m sc t a0 p0.
    destruct (bsp_i2c0_read_returns addr data count m sc t Hc) as (m' & t' & H).
    destruct (Hrun _ _ _ a0 p0 H) as (_ & Hshape & Ha & Hp).
    exists (mkMachine m' sc t'). repeat split; auto.
  - intros k d m sc t a0 p0.
    destruct (bsp_i2c0_read_late addr data count k d m sc t Hc) as (m' & t' & H).
    destruct (Hrun _ _ _ a0 p0 H) as (_ & Hshape & Ha & Hp).
    exists (mkMachine m' sc t'). repeat split; auto.
  - intros s a0 p0.
    destruct (proj2 (steady_bsp_i2c0_read addr data count) s) as (e & r & s' & H).
    destruct (Hrun _ _ _ a0 p0 H) as (-> & _ & Ha & Hp).
    exists e, s'. repeat split; auto.
Qed.

Lemma bsp_i2c0_read_closes_transaction_run :
  1 <= 1 /\ 1 <= 2 /\ 1 <= 4 /\
  (exists s',
      bsp_i2c0_read 80 100 1 (bench (prompt 6)) = Some (BSP_I2C_OK, s') /\
      script s' = [] /\
      (exists pre b post,
          trace s' = [] ++ pre ++ [Ev_data_receive b] ++ post /\
          read_epilogue post /\
          count_ev is_receive post = 0%nat) /\
      ack_after I2C_ACK_DISABLE (trace s') = I2C_ACK_ENABLE /\
      ackpos_after I2C_ACKPOS_NEXT (trace s') = I2C_ACKPOS_CURRENT) /\
  (exists s',
      bsp_i2c0_read 80 100 2 (bench (late_read 2 7 2)) = Some (BSP_I2C_OK, s') /\
      script s' = [] /\
      (exists pre b post,
          trace s' = [] ++ pre ++ [Ev_data_receive b] ++ post /\
          read_epilogue post /\
          count_ev is_receive post = 0%nat) /\
      ack_after I2C_ACK_DISABLE (trace s') = I2C_ACK_ENABLE /\
      ackpos_after I2C_ACKPOS_NEXT (trace s') = I2C_ACKPOS_CURRENT) /\
  (exists s',
      bsp_i2c0_read 80 100 4 (bench (prompt 12)) = Some (BSP_I2C_OK, s') /\
      script s' = [] /\
      (exists pre b post,
          trace s' = [] ++ pre ++ [Ev_data_receive b] ++ post /\
          read_epilogue post /\
          count_ev is_receive post = 0%nat) /\
      ack_after I2C_ACK_DISABLE (trace s') = I2C_ACK_ENABLE /\
      ackpos_after I2C_ACKPOS_NEXT (trace s') = I2C_ACKPOS_CURRENT).
Proof.
  split; [lia|]. split; [lia|]. split; [lia|]. split; [|split].
  - exact (proj1 (proj2 (bsp_i2c0_read_closes_transaction 80 100 1 ltac:(lia)))
             bench_mem [] [] I2C_ACK_DISABLE I2C_ACKPOS_NEXT).
  - exact (proj1 (proj2 (proj2 (bsp_i2c0_read_closes_transaction 80 100 2 ltac:(lia))))
             2%nat 7 bench_mem [] [] I2C_ACK_DISABLE I2C_ACKPOS_NEXT).
  - exact (proj1 (proj2 (bsp_i2c0_read_closes_transaction 80 100 4 ltac:(lia)))
             bench_mem [] [] I2C_ACK_DISABLE I2C_ACKPOS_NEXT).
Defined.

(** C8: no operation stores outside the requested bytes.  bsp_i2c0_read
    changes memory only at [data[0]] .. [data[count-1]], where it puts the
    bytes it received; bsp_i2c0_write changes nothing, bsp_i2c0_reg8_read
    only [*value], and bsp_i2c0_reg8_write only its own local array. *)
Theorem no_store_outside_requested_bytes :
  (forall addr data count s r s',
      bsp_i2c0_read addr data count s = Some (r, s') ->
      (forall a, a < data \/ data + count <= a -> mem s' a = mem s a) /\
      exists l,
        trace s' = trace s ++ l /\
        forall i, 0 <= i < count ->
                  mem s' (data + i) = nth (Z.to_nat i) (received l) 0) /\
  (forall addr data count s r s',
      bsp_i2c0_write addr data count s = Some (r, s') ->
      forall a, mem s' a = mem s a) /\
  (forall addr reg value s r s',
      bsp_i2c0_reg8_read addr reg value s = Some (r, s') ->
      forall a, a <> value -> mem s' a = mem s a) /\
  (forall txbuffer addr reg value s r s',
      bsp_i2c0_reg8_write txbuffer addr reg value s = Some (r, s') ->
      forall a, a <> txbuffer -> a <> txbuffer + 1 -> mem s' a = mem s a).
Proof.
  split; [|split; [|split]].
  - intros addr data count s r s' H.
    destruct (Z.lt_ge_cases count 1) as [Hlt|Hge].
    + rewrite bsp_i2c0_read_fail in H by exact Hlt. injection H as _ <-.
      split; [reflexivity|]. exists []. split; [now rewrite app_nil_r | lia].
    + apply bsp_i2c0_read_inv in H as (_ & bs & Hlen & (l & Ht & Hl) & Hm);
        [|exact Hge].
      split.
      * intros a Ha. rewrite Hm. apply stored_outside. lia.
      * exists l. split; [exact Ht|]. intros i Hi.
        unfold received. rewrite (picks_read_received _ _ _ _ Hl), Hm.
        replace (data + i) with (data + Z.of_nat (Z.to_nat i)) by lia.
        apply stored_inside. lia.
  - intros addr data count s r s' H a.
    destruct (Z.lt_ge_cases count 1) as [Hlt|Hge].
    + rewrite bsp_i2c0_write_fail in H by exact Hlt. now injection H as _ <-.
    + apply bsp_i2c0_write_inv in H as (_ & Hm & _); [|exact Hge]. now rewrite Hm.
  - intros addr reg value s r s' H a Ha.
    apply bsp_i2c0_reg8_read_inv in H as (_ & b & _ & Hm).
    rewrite Hm. now apply upd_other.
  - intros txbuffer addr reg value s r s' H a Ha1 Ha2.
    apply bsp_i2c0_reg8_write_inv in H as (_ & _ & Hm).
    rewrite Hm. now rewrite !upd_other.
Qed.

Lemma no_store_outside_requested_bytes_run :
  exists s',
    bsp_i2c0_read 80 100 2 (bench (prompt 8)) = Some (BSP_I2C_OK, s') /\
    (99 < 100 \/ 100 + 2 <= 99) /\
    (102 < 100 \/ 100 + 2 <= 102) /\
    mem s' 99 = 34 /\ mem s' 102 = 34 /\
    mem s' 100 = 1 /\ mem s' 101 = 1.
Proof.
  eexists. split; [vm_compute; reflexivity|].
  split; [lia|]. split; [lia|]. split; [|split; [|split; reflexivity]].
  - eapply (proj1 no_store_outside_requested_bytes
              80 100 2 (bench (prompt 8)) BSP_I2C_OK);
      [vm_compute; reflexivity | lia].
  - eapply (proj1 no_store_outside_requested_bytes
              80 100 2 (bench (prompt 8)) BSP_I2C_OK);
      [vm_compute; reflexivity | lia].
Defined.

(** C9: bsp_i2c0_write leaves memory as it found it, the buffer
    [data[0]] .. [data[count-1]] included, whether it returns OK or FAIL. *)
Theorem bsp_i2c0_write_preserves_memory addr data count s r s' :
  bsp_i2c0_write addr data count s = Some (r, s') ->
  mem s' = mem s /\
  buffer (mem s') data (Z.to_nat count) = buffer (mem s) data (Z.to_nat count).
Proof.
  intros H. assert (Hm : mem s' = mem s).
  { destruct (Z.lt_ge_cases count 1) as [Hlt|Hge].
    - rewrite bsp_i2c0_write_fail in H by exact Hlt. now injection H as _ <-.
    - now apply bsp_i2c0_write_inv in H as (_ & Hm & _). }
  split; [exact Hm | now rewrite Hm].
Qed.

Lemma bsp_i2c0_write_preserves_memory_run :
  exists s',
    bsp_i2c0_write 80 100 2 (bench (prompt 6)) = Some (BSP_I2C_OK, s') /\
    mem s' = bench_mem /\
    buffer (mem s') 100 2 = [17; 34].
Proof.
  eexists. split; [vm_compute; reflexivity|].
  apply (bsp_i2c0_write_preserves_memory 80 100 2 (bench (prompt 6)) BSP_I2C_OK).
  vm_compute. reflexivity.
Defined.

(** C10: in a bsp_i2c0_read of exactly three bytes the poll of BTC and the
    acknowledge-disable come at iteration 0: right after the addressing,
    before any of the three bytes is received.  Every completed three-byte
    read has this trace, and the read does complete: at once on a
    peripheral that is always ready, after [k] vain looks per wait on a
    peripheral with latency [k], and from any machine once the peripheral
    gives the answers the waits are looking for. *)
Theorem bsp_i2c0_read_three_nacks_first addr data :
  (forall s r s',
      bsp_i2c0_read addr data 3 s = Some (r, s') ->
      exists pre rx post b0 b1 b2,
        trace s' = trace s ++ pre ++ rx ++ post /\
        read_prologue addr pre /\
        count_ev is_receive pre = 0%nat /\
        (nack +++ rx_bytes [b0; b1; b2]) rx /\
        read_epilogue post) /\
  (forall m sc t,
      exists s' pre rx post b0 b1 b2,
        bsp_i2c0_read addr data 3 (mkMachine m (prompt 10 ++ sc) t)
        = Some (BSP_I2C_OK, s') /\
        script s' = sc /\
        trace s' = t ++ pre ++ rx ++ post /\
        read_prologue addr pre /\
        count_ev is_receive pre = 0%nat /\
        (nack +++ rx_bytes [b0; b1; b2]) rx /\
        read_epilogue post) /\
  (forall k d m sc t,
      exists s' pre rx post b0 b1 b2,
        bsp_i2c0_read addr data 3 (mkMachine m (late_read k d 3 ++ sc) t)
        = Some (BSP_I2C_OK, s') /\
        script s' = sc /\
        trace s' = t ++ pre ++ rx ++ post /\
        read_prologue addr pre /\
        count_ev is_receive pre = 0%nat /\
        (nack +++ rx_bytes [b0; b1; b2]) rx /\
        read_epilogue post) /\
  (forall s,
      exists e s' pre rx post b0 b1 b2,
        bsp_i2c0_read addr data 3 (extend s e) = Some (BSP_I2C_OK, s') /\
        trace s' = trace s ++ pre ++ rx ++ post /\
        read_prologue addr pre /\
        count_ev is_receive pre = 0%nat /\
        (nack +++ rx_bytes [b0; b1; b2]) rx /\
        read_epilogue post).
Proof.
  assert (Hrun : forall s r s',
             bsp_i2c0_read addr data 3 s = Some (r, s') ->
             r = BSP_I2C_OK /\
             exists pre rx post b0 b1 b2,
               trace s' = trace s ++ pre ++ rx ++ post /\
               read_prologue addr pre /\
               count_ev is_receive pre = 0%nat /\
               (nack +++ rx_bytes [b0; b1; b2]) rx /\
               read_epilogue post).
  { intros s r s' H.
    apply bsp_i2c0_read_inv in H as (Hr & bs & Hlen & (l & Ht & Hl) & _); [|lia].
    split; [exact Hr|].
    destruct bs as [|b0 [|b1 [|b2 [|b3 bs]]]]; try discriminate.
    destruct Hl as (pre & rest & -> & Hpre & mid & post & -> & Hmid & Hpost).
    change (rx_phase 3 [b0; b1; b2])
      with (eps +++ nack +++ rx_bytes [b0; b1; b2]) in Hmid.
    destruct Hmid as (e & rx & -> & -> & Hrx).
    exists pre, rx, post, b0, b1, b2. repeat split; auto.
    now apply (counts_read_prologue_receive addr). }
  split; [|split; [|split]].
  - intros s r s' H. exact (proj2 (Hrun s r s' H)).
  - intros m sc t.
    destruct (bsp_i2c0_read_returns addr data 3 m sc t ltac:(lia)) as (m' & t' & H).
    change (prompt (2 * Z.to_nat 3 + 4)) with (prompt 10) in H.
    destruct (Hrun _ _ _ H) as (_ & pre & rx & post & b0 & b1 & b2 & Hs).
    exists (mkMachine m' sc t'), pre, rx, post, b0, b1, b2.
    split; [exact H|]. split; [reflexivity | exact Hs].
  - intros k d m sc t.
    destruct (bsp_i2c0_read_late addr data 3 k d m sc t ltac:(lia)) as (m' & t' & H).
    destruct (Hrun _ _ _ H) as (_ & pre & rx & post & b0 & b1 & b2 & Hs).
    exists (mkMachine m' sc t'), pre, rx, post, b0, b1, b2.
    split; [exact H|]. split; [reflexivity | exact Hs].
  - intros s.
    destruct (proj2 (steady_bsp_i2c0_read addr data 3) s) as (e & r & s' & H).
    destruct (Hrun _ _ _ H) as (-> & pre & rx & post & b0 & b1 & b2 & Hs).
    exists e, s', pre, rx, post, b0, b1, b2. split; [exact H | exact Hs].
Qed.

Lemma bsp_i2c0_read_three_nacks_first_run :
  (exists s' pre rx post b0 b1 b2,
      bsp_i2c0_read 80 100 3 (bench (prompt 10)) = Some (BSP_I2C_OK, s') /\
      script s' = [] /\
      trace s' = [] ++ pre ++ rx ++ post /\
      read_prologue 80 pre /\
      count_ev is_receive pre = 0%nat /\
      (nack +++ rx_bytes [b0; b1; b2]) rx /\
      read_epilogue post) /\
  (exists s' pre rx post b0 b1 b2,
      bsp_i2c0_read 80 100 3 (bench (late_read 2 7 3)) = Some (BSP_I2C_OK, s') /\
      script s' = [] /\
      trace s' = [] ++ pre ++ rx ++ post /\
      read_prologue 80 pre /\
      count_ev is_receive pre = 0%nat /\
      (nack +++ rx_bytes [b0; b1; b2]) rx /\
      read_epilogue post).
Proof.
  destruct (bsp_i2c0_read_three_nacks_first 80 100) as (_ & Hp & Hl & _).
  split; [exact (Hp bench_mem [] []) | exact (Hl 2%nat 7 bench_mem [] [])].
Defined.

(** * Further properties of the driver *)

(** ** Waits that never end *)

Lemma bind_none {A B} (m : M A) (k : A -> M B) s :
  m s = None -> bind m k s = None.
Proof. unfold bind. now intros ->. Qed.

Lemma wait_while_set_stuck f m sc t :
  Forall (fun z => z <> 0) sc -> wait_while_set f (mkMachine m sc t) = None.
Proof.
  intros H. apply (spin_none_iff _ _ _ (reads_flag_get f)).
  eapply Forall_impl; [|exact H]. simpl. intros a Ha.
  apply Z.eqb_neq in Ha. now rewrite Ha.
Qed.

Lemma wait_until_set_stuck f m sc t :
  Forall (fun z => z = 0) sc -> wait_until_set f (mkMachine m sc t) = None.
Proof.
  intros H. apply (spin_none_iff _ _ _ (reads_flag_unset f)).
  eapply Forall_impl; [|exact H]. simpl. now intros a ->.
Qed.

Lemma wait_until_set_now f m z sc t :
  z <> 0 ->
  wait_until_set f (mkMachine m (z :: sc) t)
  = Some (tt, mkMachine m sc (t ++ [Ev_flag_get f (negb (z =? 0))])).
Proof.
  intros Hz. apply (spin_ready _ _ _ (reads_flag_unset f)). now apply Z.eqb_neq.
Qed.

(** X1: there is no timeout on the bus-busy wait (lines 31 and 93): with
    [count >= 1], as long as every answer of the peripheral has I2CBSY set,
    neither bsp_i2c0_write nor bsp_i2c0_read returns. *)
Theorem busy_bus_never_returns addr data count m sc t :
  1 <= count ->
  Forall (fun z => z <> 0) sc ->
  bsp_i2c0_write addr data count (mkMachine m sc t) = None /\
  bsp_i2c0_read addr data count (mkMachine m sc t) = None.
Proof.
  intros Hc Hsc. unfold bsp_i2c0_write, bsp_i2c0_read.
  destruct (count <? 1) eqn:E; [apply Z.ltb_lt in E; lia|]. split.
  - apply bind_none. now apply wait_while_set_stuck.
  - forward. apply bind_none. now apply wait_while_set_stuck.
Qed.

Lemma busy_bus_never_returns_run :
  1 <= 2 /\ Forall (fun z => z <> 0) [1; 7; 255] /\
  bsp_i2c0_write 80 100 2 (bench [1; 7; 255]) = None /\
  bsp_i2c0_read 80 100 2 (bench [1; 7; 255]) = None.
Proof.
  split; [lia|]. split; [repeat constructor; lia|].
  apply (busy_bus_never_returns 80 100 2 bench_mem [1; 7; 255] []);
    [lia | repeat constructor; lia].
Defined.

(** X2: there is no timeout on the address-acknowledge wait either (lines
    39 and 101) and no NACK detection: on an idle bus, once the start
    condition is sent, a slave that never sets ADDSEND keeps both
    bsp_i2c0_write and bsp_i2c0_read from returning. *)
Theorem unacknowledged_address_never_returns addr data count m z zs t :
  1 <= count ->
  z <> 0 ->
  Forall (fun y => y = 0) zs ->
  bsp_i2c0_write addr data count (mkMachine m (0 :: z :: zs) t) = None /\
  bsp_i2c0_read addr data count (mkMachine m (0 :: z :: zs) t) = None.
Proof.
  intros Hc Hz Hzs. unfold bsp_i2c0_write, bsp_i2c0_read.
  destruct (count <? 1) eqn:E; [apply Z.ltb_lt in E; lia|]. split.
  - forward. erewrite bind_some by (apply wait_until_set_now; exact Hz).
    forward. apply bind_none. now apply wait_until_set_stuck.
  - forward. erewrite bind_some by (apply wait_until_set_now; exact Hz).
    forward. apply bind_none. now apply wait_until_set_stuck.
Qed.

Lemma unacknowledged_address_never_returns_run :
  1 <= 2 /\ 1 <> 0 /\ Forall (fun y => y = 0) [0; 0; 0] /\
  bsp_i2c0_write 80 100 2 (bench [0; 1; 0; 0; 0]) = None /\
  bsp_i2c0_read 80 100 2 (bench [0; 1; 0; 0; 0]) = None.
Proof.
  split; [lia|]. split; [lia|]. split; [repeat constructor|].
  apply (unacknowledged_address_never_returns 80 100 2 bench_mem 1 [0; 0; 0] []);
    [lia | lia | repeat constructor].
Defined.

(** ** What the driver reads from memory *)

Lemma same_outcome_weaken {A} (P Q : Z -> Prop) (o1 o2 : option (A * machine)) :
  (forall a, P a -> Q a) -> same_outcome Q o1 o2 -> same_outcome P o1 o2.
Proof.
  intros HPQ. destruct o1 as [[a1 s1]|], o2 as [[a2 s2]|]; simpl; auto.
  intros (-> & Hs & Ht & Hm). repeat split; auto.
Qed.

Lemma confined_ret {A} P (a : A) : confined P (ret a).
Proof. intros s1 s2 H. simpl. auto. Qed.

Lemma confined_emit P e : confined P (emit e).
Proof.
  intros s1 s2 (Hs & Ht & Hm). simpl. split; [reflexivity|].
  repeat split; simpl; auto. now rewrite Ht.
Qed.

Lemma confined_respond {A} P (decode : Z -> A) ev : confined P (respond decode ev).
Proof.
  intros s1 s2 (Hs & Ht & Hm). unfold respond. rewrite Hs.
  destruct (script s2) as [|z rest]; simpl; [exact I|].
  split; [reflexivity|]. repeat split; simpl; auto. now rewrite Ht.
Qed.

Lemma confined_store P a v : confined P (store a v).
Proof.
  intros s1 s2 (Hs & Ht & Hm). simpl. split; [reflexivity|].
  repeat split; simpl; auto. intros x Hx. unfold upd.
  destruct (x =? a); auto.
Qed.

Lemma confined_load (P : Z -> Prop) a : P a -> confined P (load a).
Proof.
  intros Ha s1 s2 (Hs & Ht & Hm). simpl. split; [now apply Hm|].
  repeat split; auto.
Qed.

Lemma confined_bind {A B} P (m : M A) (k : A -> M B) :
  confined P m -> (forall a, confined P (k a)) -> confined P (bind m k).
Proof.
  intros Hm Hk s1 s2 Hag. specialize (Hm s1 s2 Hag). unfold bind.
  destruct (m s1) as [[a1 s1']|], (m s2) as [[a2 s2']|];
    simpl in Hm; try contradiction; [|exact I].
  destruct Hm as [-> Hag']. now apply Hk.
Qed.

Lemma confined_while_fuel P cond :
  confined P cond -> forall fuel, confined P (while_fuel fuel cond).
Proof.
  intros Hc. induction fuel as [|fuel IH]; [intros s1 s2 _; exact I|].
  cbn [while_fuel]. apply confined_bind; [exact Hc|].
  intros [|]; [exact IH | apply confined_ret].
Qed.

Lemma confined_spin P cond : confined P cond -> confined P (spin cond).
Proof.
  intros Hc s1 s2 Hag. unfold spin. destruct Hag as (Hs & Ht & Hm).
  rewrite Hs. apply confined_while_fuel; [exact Hc|]. repeat split; auto.
Qed.

Ltac confined_steps :=
  repeat first
    [ apply confined_ret | apply confined_emit | apply confined_store
    | apply confined_respond | apply confined_spin
    | apply confined_bind; [|intros] ].

Lemma confined_write_loop (P : Z -> Prop) n :
  forall data,
    (forall i, (i < n)%nat -> P (data + Z.of_nat i)) ->
    confined P (write_loop n data).
Proof.
  induction n as [|n IH]; intros data HP; cbn [write_loop].
  - apply confined_ret.
  - apply confined_bind.
    + apply confined_load. replace data with (data + Z.of_nat 0) by lia.
      apply HP. lia.
    + intros b. unfold wait_until_set, i2c_flag_get, i2c_data_transmit.
      do 2 (apply confined_bind; [confined_steps | intros _]).
      apply IH. intros i Hi.
      replace (data + 1 + Z.of_nat i) with (data + Z.of_nat (S i)) by lia.
      apply HP. lia.
Qed.

Lemma confined_bsp_i2c0_write (P : Z -> Prop) addr data count :
  (forall i, 0 <= i < count -> P (data + i)) ->
  confined P (bsp_i2c0_write addr data count).
Proof.
  intros HP. unfold bsp_i2c0_write. destruct (count <? 1); [apply confined_ret|].
  unfold wait_while_set, wait_until_set, wait_stop_clear, i2c_flag_get, I2C_CTL0,
    i2c_start_on_bus, i2c_stop_on_bus, i2c_master_addressing, i2c_flag_clear.
  do 7 (apply confined_bind; [confined_steps | intros _]).
  apply confined_bind; [|intros _; confined_steps].
  apply confined_write_loop. intros i Hi. apply HP. lia.
Qed.

Lemma confined_read_loop P n :
  forall i data count, confined P (read_loop n i data count).
Proof.
  induction n as [|n IH]; intros i data count; cbn [read_loop].
  - apply confined_ret.
  - unfold wait_until_set, i2c_flag_get, i2c_data_receive, i2c_ack_config.
    apply confined_bind; [destruct (count - 3 =? i); confined_steps|].
    intros _. do 3 (apply confined_bind; [confined_steps | intros]).
    apply IH.
Qed.

Lemma confined_bsp_i2c0_read P addr data count :
  confined P (bsp_i2c0_read addr data count).
Proof.
  unfold bsp_i2c0_read. destruct (count <? 1); [apply confined_ret|].
  unfold wait_while_set, wait_until_set, wait_stop_clear, i2c_flag_get, I2C_CTL0,
    i2c_start_on_bus, i2c_stop_on_bus, i2c_master_addressing, i2c_flag_clear,
    i2c_ackpos_config, i2c_ack_config, i2c_data_receive.
  do 7 (apply confined_bind; [confined_steps | intros _]).
  apply confined_bind; [|intros _; confined_steps].
  destruct (3 <=? count); [apply confined_read_loop|].
  destruct (count =? 2); confined_steps.
Qed.

Lemma confined_bsp_i2c0_reg8_read (P : Z -> Prop) addr reg value :
  P reg -> confined P (bsp_i2c0_reg8_read addr reg value).
Proof.
  intros HP. unfold bsp_i2c0_reg8_read.
  apply confined_bind; [|intros _].
  - apply confined_bsp_i2c0_write. intros i Hi.
    replace (reg + i) with reg by lia. exact HP.
  - apply confined_bind; [apply confined_bsp_i2c0_read | intros _; apply confined_ret].
Qed.

(** X3: bsp_i2c0_write reads no byte of memory outside
    [data[0]] .. [data[count-1]] (lines 44-52): on two machines that differ
    only in memory outside the buffer it gives the same result, makes the
    same peripheral accesses and takes the same answers. *)
Theorem bsp_i2c0_write_reads_only_its_buffer addr data count s1 s2 :
  script s1 = script s2 ->
  trace s1 = trace s2 ->
  (forall i, 0 <= i < count -> mem s1 (data + i) = mem s2 (data + i)) ->
  match bsp_i2c0_write addr data count s1, bsp_i2c0_write addr data count s2 with
  | Some (r1, s1'), Some (r2, s2') =>
      r1 = r2 /\ script s1' = script s2' /\ trace s1' = trace s2'
  | None, None => True
  | _, _ => False
  end.
Proof.
  intros Hs Ht Hm.
  pose proof (confined_bsp_i2c0_write (fun a => data <= a < data + count)
                addr data count) as H.
  specialize (H ltac:(intros; cbv beta; lia) s1 s2).
  assert (Hag : agree (fun a => data <= a < data + count) s1 s2).
  { repeat split; auto. intros a Ha.
    replace a with (data + (a - data)) by lia. apply Hm. lia. }
  specialize (H Hag).
  destruct (bsp_i2c0_write addr data count s1) as [[r1 s1']|],
           (bsp_i2c0_write addr data count s2) as [[r2 s2']|]; simpl in H; auto.
  destruct H as (-> & Hs' & Ht' & _). auto.
Qed.

Lemma bsp_i2c0_write_reads_only_its_buffer_run :
  (forall i, 0 <= i < 2 ->
             bench_mem (100 + i) = upd (upd bench_mem 5 0) 200 99 (100 + i)) /\
  match bsp_i2c0_write 80 100 2 (bench (prompt 6)),
        bsp_i2c0_write 80 100 2
          (mkMachine (upd (upd bench_mem 5 0) 200 99) (prompt 6) []) with
  | Some (r1, s1'), Some (r2, s2') =>
      r1 = r2 /\ script s1' = script s2' /\ trace s1' = trace s2'
  | None, None => True
  | _, _ => False
  end.
Proof.
  assert (H : forall i, 0 <= i < 2 ->
                        bench_mem (100 + i) = upd (upd bench_mem 5 0) 200 99 (100 + i)).
  { intros i Hi. assert (i = 0 \/ i = 1) as [-> | ->] by lia; reflexivity. }
  split; [exact H|].
  apply (bsp_i2c0_write_reads_only_its_buffer 80 100 2 (bench (prompt 6))
           (mkMachine (upd (upd bench_mem 5 0) 200 99) (prompt 6) []));
    [reflexivity | reflexivity | exact H].
Defined.

(** X4: bsp_i2c0_read never reads memory (lines 85-152): what it returns,
    the accesses it makes and the bytes it leaves in
    [data[0]] .. [data[count-1]] are the same whatever memory held before,
    and addresses where two memories agreed still agree afterwards. *)
Theorem bsp_i2c0_read_never_reads_memory addr data count s1 s2 :
  script s1 = script s2 ->
  trace s1 = trace s2 ->
  match bsp_i2c0_read addr data count s1, bsp_i2c0_read addr data count s2 with
  | Some (r1, s1'), Some (r2, s2') =>
      r1 = r2 /\ script s1' = script s2' /\ trace s1' = trace s2' /\
      (forall i, 0 <= i < count -> mem s1' (data + i) = mem s2' (data + i)) /\
      (forall a, mem s1 a = mem s2 a -> mem s1' a = mem s2' a)
  | None, None => True
  | _, _ => False
  end.
Proof.
  intros Hs Ht.
  pose proof (confined_bsp_i2c0_read (fun a => mem s1 a = mem s2 a)
                addr data count s1 s2) as H.
  specialize (H ltac:(repeat split; auto)).
  destruct (bsp_i2c0_read addr data count s1) as [[r1 s1']|] eqn:E1,
           (bsp_i2c0_read addr data count s2) as [[r2 s2']|] eqn:E2;
    simpl in H; auto.
  destruct H as (-> & Hs' & Ht' & Hm'). repeat split; auto.
  intros i Hi.
  apply bsp_i2c0_read_inv in E1 as (_ & bs1 & Hlen1 & (l1 & Hl1 & Hp1) & Hm1); [|lia].
  apply bsp_i2c0_read_inv in E2 as (_ & bs2 & Hlen2 & (l2 & Hl2 & Hp2) & Hm2); [|lia].
  assert (l1 = l2).
  { apply (app_inv_head (trace s1)). rewrite <- Hl1, Ht' , Hl2. now rewrite Ht. }
  subst l2.
  assert (bs1 = bs2).
  { rewrite <- (picks_read_received _ _ _ _ Hp1).
    now rewrite <- (picks_read_received _ _ _ _ Hp2). }
  subst bs2. rewrite Hm1, Hm2.
  replace (data + i) with (data + Z.of_nat (Z.to_nat i)) by lia.
  rewrite !stored_inside by lia. reflexivity.
Qed.

Lemma bsp_i2c0_read_never_reads_memory_run :
  match bsp_i2c0_read 80 100 3 (bench (prompt 10)),
        bsp_i2c0_read 80 100 3 (mkMachine (fun _ => 0) (prompt 10) []) with
  | Some (r1, s1'), Some (r2, s2') =>
      r1 = r2 /\ script s1' = script s2' /\ trace s1' = trace s2' /\
      (forall i, 0 <= i < 3 -> mem s1' (100 + i) = mem s2' (100 + i)) /\
      (forall a, bench_mem a = 0 -> mem s1' a = mem s2' a)
  | None, None => True
  | _, _ => False
  end.
Proof.
  apply (bsp_i2c0_read_never_reads_memory 80 100 3 (bench (prompt 10))
           (mkMachine (fun _ => 0) (prompt 10) []));
    reflexivity.
Defined.

(** X5: bsp_i2c0_reg8_read reads memory at address [reg] and nowhere else
    (line 164): two machines that hold the same byte there behave alike,
    and two that hold different bytes there put different bytes on the
    bus. *)
Theorem bsp_i2c0_reg8_read_depends_on_byte_at_reg addr reg value s1 s2 :
  script s1 = script s2 ->
  trace s1 = trace s2 ->
  (mem s1 reg = mem s2 reg ->
   match bsp_i2c0_reg8_read addr reg value s1,
         bsp_i2c0_reg8_read addr reg value s2 with
   | Some (r1, s1'), Some (r2, s2') =>
       r1 = r2 /\ script s1' = script s2' /\ trace s1' = trace s2'
   | None, None => True
   | _, _ => False
   end) /\
  (mem s1 reg <> mem s2 reg ->
   forall r1 s1' r2 s2',
     bsp_i2c0_reg8_read addr reg value s1 = Some (r1, s1') ->
     bsp_i2c0_reg8_read addr reg value s2 = Some (r2, s2') ->
     trace s1' <> trace s2').
Proof.
  intros Hs Ht. split.
  - intros Hreg.
    pose proof (confined_bsp_i2c0_reg8_read (fun a => a = reg)
                  addr reg value eq_refl s1 s2) as H.
    assert (Hag : agree (fun a => a = reg) s1 s2).
    { repeat split; auto. now intros a ->. }
    specialize (H Hag).
    destruct (bsp_i2c0_reg8_read addr reg value s1) as [[r1 s1']|],
             (bsp_i2c0_reg8_read addr reg value s2) as [[r2 s2']|];
      simpl in H; auto.
    destruct H as (-> & Hs' & Ht' & _). auto.
  - intros Hreg r1 s1' r2 s2' E1 E2 Heq.
    apply bsp_i2c0_reg8_read_inv in E1 as (_ & b1 & (l1 & Hl1 & Hp1) & _).
    apply bsp_i2c0_reg8_read_inv in E2 as (_ & b2 & (l2 & Hl2 & Hp2) & _).
    assert (l1 = l2).
    { apply (app_inv_head (trace s1)). rewrite <- Hl1, Heq, Hl2. now rewrite Ht. }
    subst l2. apply Hreg.
    pose proof (picks_cat tx_of _ _ _ _
                  (picks_write_transaction addr [mem s1 reg])
                  (picks_read_transmitted addr 1 [b1]) l1 Hp1) as T1.
    pose proof (picks_cat tx_of _ _ _ _
                  (picks_write_transaction addr [mem s2 reg])
                  (picks_read_transmitted addr 1 [b2]) l1 Hp2) as T2.
    rewrite T1 in T2. simpl in T2. now injection T2.
Qed.

Lemma bsp_i2c0_reg8_read_depends_on_byte_at_reg_run :
  bench_mem 5 <> upd bench_mem 5 5 5 /\
  exists s1' s2',
    bsp_i2c0_reg8_read 80 5 100 (bench (prompt 5 ++ prompt 6))
    = Some (BSP_I2C_OK, s1') /\
    bsp_i2c0_reg8_read 80 5 100
      (mkMachine (upd bench_mem 5 5) (prompt 5 ++ prompt 6) [])
    = Some (BSP_I2C_OK, s2') /\
    trace s1' <> trace s2'.
Proof.
  assert (Hne : bench_mem 5 <> upd bench_mem 5 5 5) by (vm_compute; discriminate).
  split; [exact Hne|]. do 2 eexists.
  split; [vm_compute; reflexivity|]. split; [vm_compute; reflexivity|].
  apply (proj2 (bsp_i2c0_reg8_read_depends_on_byte_at_reg 80 5 100
                  (bench (prompt 5 ++ prompt 6))
                  (mkMachine (upd bench_mem 5 5) (prompt 5 ++ prompt 6) [])
                  eq_refl eq_refl) Hne BSP_I2C_OK _ BSP_I2C_OK);
    vm_compute; reflexivity.
Defined.

(** ** Start and stop conditions *)

Lemma counts_tx_bytes_none P bs :
  ignores_polls P -> (forall b, P (Ev_data_transmit b) = false) ->
  counts (tx_bytes bs) P 0.
Proof.
  intros HP Htx. induction bs as [|b bs IH]; simpl; [apply counts_eps|].
  eapply counts_eq.
  - eapply counts_cat; [apply counts_one|].
    eapply counts_cat; [apply counts_poll_set; exact HP | exact IH].
  - now rewrite Htx.
Qed.

Lemma counts_rx_bytes_none P bs :
  ignores_polls P -> (forall b, P (Ev_data_receive b) = false) ->
  counts (rx_bytes bs) P 0.
Proof.
  intros HP Hrx. induction bs as [|b bs IH]; simpl; [apply counts_eps|].
  eapply counts_eq.
  - eapply counts_cat; [|exact IH]. unfold rx_byte.
    eapply counts_cat; [apply counts_poll_set; exact HP | apply counts_one].
  - now rewrite Hrx.
Qed.

Ltac count_marks :=
  repeat first
    [ eapply counts_cat | apply counts_one | apply counts_eps
    | apply counts_poll_clear | apply counts_poll_set | apply counts_poll_stop
    | apply counts_tx_bytes_none | apply counts_rx_bytes_none
    | split; reflexivity | intros; reflexivity ].

Lemma counts_write_start addr bs : counts (write_transaction addr bs) is_start 1.
Proof. unfold write_transaction. eapply counts_eq; [count_marks | reflexivity]. Qed.

Lemma counts_write_stop addr bs : counts (write_transaction addr bs) is_stop 1.
Proof. unfold write_transaction. eapply counts_eq; [count_marks | reflexivity]. Qed.

Lemma counts_read_start addr count bs :
  counts (read_transaction addr (rx_phase count bs)) is_start 1.
Proof.
  unfold read_transaction, read_prologue, read_epilogue, rx_phase, nack.
  destruct (3 <=? count); (eapply counts_eq; [count_marks | reflexivity]).
Qed.

Lemma counts_read_stop addr count bs :
  counts (read_transaction addr (rx_phase count bs)) is_stop 1.
Proof.
  unfold read_transaction, read_prologue, read_epilogue, rx_phase, nack.
  destruct (3 <=? count); (eapply counts_eq; [count_marks | reflexivity]).
Qed.

(** X6: a completed bsp_i2c0_write or bsp_i2c0_read of at least one byte
    asserts exactly one start condition and exactly one stop condition
    (lines 33, 54, 95, 144), whatever the number of bytes. *)
Theorem one_start_one_stop_per_transfer addr data count :
  1 <= count ->
  (forall s r s',
      bsp_i2c0_write addr data count s = Some (r, s') ->
      exists l, trace s' = trace s ++ l /\
                count_ev is_start l = 1%nat /\ count_ev is_stop l = 1%nat) /\
  (forall s r s',
      bsp_i2c0_read addr data count s = Some (r, s') ->
      exists l, trace s' = trace s ++ l /\
                count_ev is_start l = 1%nat /\ count_ev is_stop l = 1%nat).
Proof.
  intros Hc. split; intros s r s' H.
  - apply bsp_i2c0_write_inv in H as (_ & _ & l & Ht & Hl); [|exact Hc].
    exists l. split; [exact Ht|]. split.
    + exact (counts_write_start addr _ l Hl).
    + exact (counts_write_stop addr _ l Hl).
  - apply bsp_i2c0_read_inv in H as (_ & bs & _ & (l & Ht & Hl) & _); [|exact Hc].
    exists l. split; [exact Ht|]. split.
    + exact (counts_read_start addr count bs l Hl).
    + exact (counts_read_stop addr count bs l Hl).
Qed.

Lemma one_start_one_stop_per_transfer_run :
  1 <= 4 /\
  exists s',
    bsp_i2c0_read 80 100 4 (bench (prompt 12)) = Some (BSP_I2C_OK, s') /\
    exists l, trace s' = [] ++ l /\
              count_ev is_start l = 1%nat /\ count_ev is_stop l = 1%nat.
Proof.
  split; [lia|]. eexists. split; [vm_compute; reflexivity|].
  apply (proj2 (one_start_one_stop_per_transfer 80 100 4 ltac:(lia))
           (bench (prompt 12)) BSP_I2C_OK).
  vm_compute. reflexivity.
Defined.


















(** ** Acknowledge configuration and addressing *)

Lemma picks_tx_bytes_none g bs :
  skips_polls g -> (forall b, g (Ev_data_transmit b) = []) ->
  picks g (tx_bytes bs) [].
Proof.
  intros Hg Htx. induction bs as [|b bs IH]; simpl; [apply picks_eps|].
  eapply picks_eq.
  - eapply picks_cat; [apply picks_one|].
    eapply picks_cat; [apply picks_poll_set; exact Hg | exact IH].
  - now rewrite Htx.
Qed.

Lemma picks_rx_bytes_none g bs :
  skips_polls g -> (forall b, g (Ev_data_receive b) = []) ->
  picks g (rx_bytes bs) [].
Proof.
  intros Hg Hrx. induction bs as [|b bs IH]; simpl; [apply picks_eps|].
  eapply picks_eq.
  - eapply picks_cat; [|exact IH]. unfold rx_byte.
    eapply picks_cat; [apply picks_poll_set; exact Hg | apply picks_one].
  - now rewrite Hrx.
Qed.

Ltac pick_marks :=
  repeat first
    [ eapply picks_cat | apply picks_one | apply picks_eps
    | apply picks_poll_clear | apply picks_poll_set | apply picks_poll_stop
    | apply picks_tx_bytes_none | apply picks_rx_bytes_none
    | split; reflexivity | intros; reflexivity ].

Lemma picks_write_config addr bs : picks config_of (write_transaction addr bs) [].
Proof. unfold write_transaction. eapply picks_eq; [pick_marks | reflexivity]. Qed.

Lemma picks_write_addr addr bs :
  picks addr_of (write_transaction addr bs) [Z.shiftl addr 1].
Proof. unfold write_transaction. eapply picks_eq; [pick_marks | reflexivity]. Qed.

Lemma picks_read_addr addr count bs :
  picks addr_of (read_transaction addr (rx_phase count bs)) [Z.shiftl addr 1].
Proof.
  unfold read_transaction, read_prologue, read_epilogue, rx_phase, nack.
  destruct (3 <=? count); (eapply picks_eq; [pick_marks | reflexivity]).
Qed.

Lemma ack_after_app a t l : ack_after a (t ++ l) = ack_after (ack_after a t) l.
Proof. unfold ack_after. apply fold_left_app. Qed.

Lemma ackpos_after_app p t l :
  ackpos_after p (t ++ l) = ackpos_after (ackpos_after p t) l.
Proof. unfold ackpos_after. apply fold_left_app. Qed.

Lemma no_config_keeps_ack l :
  flat_map config_of l = [] ->
  forall a p, ack_after a l = a /\ ackpos_after p l = p.
Proof.
  induction l as [|e l IH]; intros H a p; [split; reflexivity|].
  destruct e; simpl in H; try discriminate; apply (IH H).
Qed.

(** X8: bsp_i2c0_write and bsp_i2c0_reg8_write never configure the
    acknowledge (lines 24-75): the acknowledge setting and position are,
    after the call, what they were before it. *)
Theorem write_never_configures_acknowledge a0 p0 :
  (forall addr data count s r s',
      bsp_i2c0_write addr data count s = Some (r, s') ->
      ack_after a0 (trace s') = ack_after a0 (trace s) /\
      ackpos_after p0 (trace s') = ackpos_after p0 (trace s)) /\
  (forall txbuffer addr reg value s r s',
      bsp_i2c0_reg8_write txbuffer addr reg value s = Some (r, s') ->
      ack_after a0 (trace s') = ack_after a0 (trace s) /\
      ackpos_after p0 (trace s') = ackpos_after p0 (trace s)).
Proof.
  split.
  - intros addr data count s r s' H.
    destruct (Z.lt_ge_cases count 1) as [Hlt|Hge].
    + rewrite bsp_i2c0_write_fail in H by exact Hlt. injection H as _ <-. auto.
    + apply bsp_i2c0_write_inv in H as (_ & _ & l & Ht & Hl); [|exact Hge].
      rewrite Ht, ack_after_app, ackpos_after_app.
      apply no_config_keeps_ack. exact (picks_write_config addr _ l Hl).
  - intros txbuffer addr reg value s r s' H.
    apply bsp_i2c0_reg8_write_inv in H as (_ & (l & Ht & Hl) & _).
    rewrite Ht, ack_after_app, ackpos_after_app.
    apply no_config_keeps_ack. exact (picks_write_config addr _ l Hl).
Qed.

Lemma write_never_configures_acknowledge_run :
  exists s',
    bsp_i2c0_write 80 100 2
      (mkMachine bench_mem (prompt 6) [Ev_ack_config I2C_ACK_DISABLE])
    = Some (BSP_I2C_OK, s') /\
    ack_after I2C_ACK_ENABLE (trace s') = I2C_ACK_DISABLE /\
    ackpos_after I2C_ACKPOS_NEXT (trace s') = I2C_ACKPOS_NEXT.
Proof.
  eexists. split; [vm_compute; reflexivity|].
  apply (proj1 (write_never_configures_acknowledge I2C_ACK_ENABLE I2C_ACKPOS_NEXT)
           80 100 2 (mkMachine bench_mem (prompt 6) [Ev_ack_config I2C_ACK_DISABLE])
           BSP_I2C_OK).
  vm_compute. reflexivity.
Defined.

(** X9: a completed bsp_i2c0_reg8_read leaves the acknowledge enabled and
    its position "current" (lines 162-168): its write changes neither, and
    its read ends by restoring both. *)
Theorem bsp_i2c0_reg8_read_restores_acknowledge addr reg value s r s' a0 p0 :
  bsp_i2c0_reg8_read addr reg value s = Some (r, s') ->
  ack_after a0 (trace s') = I2C_ACK_ENABLE /\
  ackpos_after p0 (trace s') = I2C_ACKPOS_CURRENT.
Proof.
  intros H.
  apply bsp_i2c0_reg8_read_inv in H as (_ & b & (l & Ht & Hl) & _).
  destruct Hl as (w & rd & -> & _ & pro & rest & -> & _ & rx & post & -> & _ & Hpost).
  destruct (read_epilogue_end post Hpost) as (mid & ->).
  rewrite Ht, !app_assoc. split; [apply ack_after_end | apply ackpos_after_end].
Qed.

Lemma bsp_i2c0_reg8_read_restores_acknowledge_run :
  exists s',
    bsp_i2c0_reg8_read 80 5 100 (bench (prompt 5 ++ prompt 6))
    = Some (BSP_I2C_OK, s') /\
    ack_after I2C_ACK_DISABLE (trace s') = I2C_ACK_ENABLE /\
    ackpos_after I2C_ACKPOS_NEXT (trace s') = I2C_ACKPOS_CURRENT.
Proof.
  eexists. split; [vm_compute; reflexivity|].
  apply (bsp_i2c0_reg8_read_restores_acknowledge
           80 5 100 (bench (prompt 5 ++ prompt 6)) BSP_I2C_OK).
  vm_compute. reflexivity.
Defined.

(** X10: both transfers address the slave once, with [2 * addr] (lines 37
    and 99): bit 0 is clear, the upper bits give back [addr], and the
    value is not masked, so it fits in a byte only for a 7-bit [addr]. *)
Theorem transfers_address_twice_the_address addr data count :
  1 <= count ->
  (forall s r s',
      bsp_i2c0_write addr data count s = Some (r, s') ->
      exists l, trace s' = trace s ++ l /\ flat_map addr_of l = [2 * addr]) /\
  (forall s r s',
      bsp_i2c0_read addr data count s = Some (r, s') ->
      exists l, trace s' = trace s ++ l /\ flat_map addr_of l = [2 * addr]) /\
  Z.testbit (2 * addr) 0 = false /\
  Z.shiftr (2 * addr) 1 = addr /\
  (2 * addr < 256 <-> addr < 128).
Proof.
  intros Hc.
  assert (E : Z.shiftl addr 1 = 2 * addr).
  { rewrite Z.shiftl_mul_pow2 by lia. change (2 ^ 1) with 2. lia. }
  split; [|split; [|split; [|split]]].
  - intros s r s' H.
    apply bsp_i2c0_write_inv in H as (_ & _ & l & Ht & Hl); [|exact Hc].
    exists l. split; [exact Ht|]. rewrite <- E. exact (picks_write_addr addr _ l Hl).
  - intros s r s' H.
    apply bsp_i2c0_read_inv in H as (_ & bs & _ & (l & Ht & Hl) & _); [|exact Hc].
    exists l. split; [exact Ht|]. rewrite <- E.
    exact (picks_read_addr addr count bs l Hl).
  - apply Z.testbit_even_0.
  - rewrite Z.shiftr_div_pow2 by lia. change (2 ^ 1) with 2.
    rewrite Z.mul_comm. apply Z.div_mul. lia.
  - lia.
Qed.

Lemma transfers_address_twice_the_address_run :
  1 <= 2 /\
  exists s',
    bsp_i2c0_write 200 100 2 (bench (prompt 6)) = Some (BSP_I2C_OK, s') /\
    exists l, trace s' = [] ++ l /\ flat_map addr_of l = [400].
Proof.
  split; [lia|]. eexists. split; [vm_compute; reflexivity|].
  apply (proj1 (transfers_address_twice_the_address 200 100 2 ltac:(lia))
           (bench (prompt 6)) BSP_I2C_OK).
  vm_compute. reflexivity.
Defined.

(** ** Answers taken and answers left *)

Lemma prefixing_ret {A} (a : A) : prefixing (ret a).
Proof. intros s b s' H. apply ret_inv in H as [_ ->]. now exists []. Qed.

Lemma prefixing_emit e : prefixing (emit e).
Proof. intros s b s' H. unfold emit in H. injection H as _ <-. now exists []. Qed.

Lemma prefixing_load a : prefixing (load a).
Proof. intros s b s' H. apply load_inv in H as [_ ->]. now exists []. Qed.

Lemma prefixing_store a v : prefixing (store a v).
Proof. intros s b s' H. unfold store in H. injection H as _ <-. now exists []. Qed.

Lemma prefixing_respond {A} (decode : Z -> A) ev : prefixing (respond decode ev).
Proof.
  intros s b s' H. unfold respond in H.
  destruct (script s) as [|z rest]; [discriminate|].
  injection H as _ <-. now exists [z].
Qed.

Lemma prefixing_bind {A B} (m : M A) (k : A -> M B) :
  prefixing m -> (forall a, prefixing (k a)) -> prefixing (bind m k).
Proof.
  intros Hm Hk s b s2 H. apply bind_inv in H as (a & s1 & H1 & H2).
  destruct (Hm _ _ _ H1) as [u1 E1]. destruct (Hk a _ _ _ H2) as [u2 E2].
  exists (u1 ++ u2). now rewrite E1, E2, app_assoc.
Qed.

Lemma prefixing_spin cond test ev : reads cond test ev -> prefixing (spin cond).
Proof.
  intros Hc s u s' H.
  apply (while_fuel_reads _ _ _ Hc) in H as (_ & fails & z & E & _).
  exists (fails ++ [z]). now rewrite <- app_assoc.
Qed.

Lemma prefixing_wait_while_set f : prefixing (wait_while_set f).
Proof. exact (prefixing_spin _ _ _ (reads_flag_get f)). Qed.

Lemma prefixing_wait_until_set f : prefixing (wait_until_set f).
Proof. exact (prefixing_spin _ _ _ (reads_flag_unset f)). Qed.

Lemma prefixing_wait_stop_clear : prefixing wait_stop_clear.
Proof. exact (prefixing_spin _ _ _ reads_stop_bit). Qed.

Ltac prefixing_steps :=
  repeat first
    [ apply prefixing_ret | apply prefixing_emit | apply prefixing_load
    | apply prefixing_store | apply prefixing_respond
    | apply prefixing_wait_while_set | apply prefixing_wait_until_set
    | apply prefixing_wait_stop_clear
    | apply prefixing_bind; [|intros] ].

Lemma prefixing_write_loop n : forall data, prefixing (write_loop n data).
Proof.
  induction n as [|n IH]; intros data; cbn [write_loop]; prefixing_steps. apply IH.
Qed.

Lemma prefixing_read_loop n :
  forall i data count, prefixing (read_loop n i data count).
Proof.
  induction n as [|n IH]; intros i data count; cbn [read_loop].
  - prefixing_steps.
  - apply prefixing_bind; [destruct (count - 3 =? i); prefixing_steps|].
    intros _. prefixing_steps. apply IH.
Qed.

Lemma prefixing_bsp_i2c0_write addr data count :
  prefixing (bsp_i2c0_write addr data count).
Proof.
  unfold bsp_i2c0_write. destruct (count <? 1); [apply prefixing_ret|].
  prefixing_steps. apply prefixing_write_loop.
Qed.

Lemma prefixing_bsp_i2c0_read addr data count :
  prefixing (bsp_i2c0_read addr data count).
Proof.
  unfold bsp_i2c0_read. destruct (count <? 1); [apply prefixing_ret|].
  do 7 (apply prefixing_bind; [prefixing_steps | intros _]).
  apply prefixing_bind; [|intros _; prefixing_steps].
  destruct (3 <=? count); [apply prefixing_read_loop|].
  destruct (count =? 2); prefixing_steps.
Qed.

(** X11: a completed call takes the answers of the peripheral from the
    front, in order, and is not influenced by the ones it leaves: with
    further answers behind, it returns the same status, makes the same
    accesses and leaves those answers for the next call.  This holds for
    all four operations (lines 24-168). *)
Theorem unused_answers_are_left_alone :
  (forall addr data count s r s',
      bsp_i2c0_write addr data count s = Some (r, s') ->
      (exists used, script s = used ++ script s') /\
      forall e, bsp_i2c0_write addr data count (extend s e) = Some (r, extend s' e)) /\
  (forall addr data count s r s',
      bsp_i2c0_read addr data count s = Some (r, s') ->
      (exists used, script s = used ++ script s') /\
      forall e, bsp_i2c0_read addr data count (extend s e) = Some (r, extend s' e)) /\
  (forall txbuffer addr reg value s r s',
      bsp_i2c0_reg8_write txbuffer addr reg value s = Some (r, s') ->
      (exists used, script s = used ++ script s') /\
      forall e, bsp_i2c0_reg8_write txbuffer addr reg value (extend s e)
                = Some (r, extend s' e)) /\
  (forall addr reg value s r s',
      bsp_i2c0_reg8_read addr reg value s = Some (r, s') ->
      (exists used, script s = used ++ script s') /\
      forall e, bsp_i2c0_reg8_read addr reg value (extend s e)
                = Some (r, extend s' e)).
Proof.
  split; [|split; [|split]].
  - intros addr data count s r s' H. split.
    + exact (prefixing_bsp_i2c0_write addr data count s r s' H).
    + intros e. now apply (proj1 (steady_bsp_i2c0_write addr data count)).
  - intros addr data count s r s' H. split.
    + exact (prefixing_bsp_i2c0_read addr data count s r s' H).
    + intros e. now apply (proj1 (steady_bsp_i2c0_read addr data count)).
  - intros txbuffer addr reg value s r s' H. split.
    + revert H. unfold bsp_i2c0_reg8_write.
      apply (prefixing_bind _ _ (prefixing_store _ _)). intros _.
      apply (prefixing_bind _ _ (prefixing_store _ _)). intros _.
      apply (prefixing_bind _ _ (prefixing_bsp_i2c0_write _ _ _)). intros _.
      apply prefixing_ret.
    + intros e. now apply (proj1 (steady_bsp_i2c0_reg8_write txbuffer addr reg value)).
  - intros addr reg value s r s' H. split.
    + revert H. unfold bsp_i2c0_reg8_read.
      apply (prefixing_bind _ _ (prefixing_bsp_i2c0_write _ _ _)). intros _.
      apply (prefixing_bind _ _ (prefixing_bsp_i2c0_read _ _ _)). intros _.
      apply prefixing_ret.
    + intros e. now apply (proj1 (steady_bsp_i2c0_reg8_read addr reg value)).
Qed.

Lemma unused_answers_are_left_alone_run :
  exists s',
    bsp_i2c0_write 80 100 2 (bench (prompt 6)) = Some (BSP_I2C_OK, s') /\
    bsp_i2c0_write 80 100 2 (extend (bench (prompt 6)) [7; 9])
    = Some (BSP_I2C_OK, extend s' [7; 9]) /\
    script (extend s' [7; 9]) = [7; 9].
Proof.
  eexists. split; [vm_compute; reflexivity|]. split; [|reflexivity].
  apply (proj1 unused_answers_are_left_alone 80 100 2 (bench (prompt 6)) BSP_I2C_OK).
  vm_compute. reflexivity.
Defined.
